(** * cheatmd: variable resolution and interactive selection

    A shallow embedding of [internal/ui/resolve.go] and of the variable
    selection / input models of the terminal UI, with the properties of the
    variable resolution engine stated and proved over it.

    Go strings are byte sequences: they are modelled by [string], whose
    characters are the 256 byte values.  Go maps are [gmap]s, a
    [map[string]bool] that only ever stores [true] is a [gset]. *)

From Stdlib Require Import Ascii String ZArith Lia.
From stdpp Require Import gmap strings list.

Set Warnings "-clear-no-such-hyp".

(** ** The parts of Go's [strings] package that the code calls *)

Module GoStrings.

(** [unicode.IsSpace] on the one-byte code points: tab, line feed, vertical
    tab, form feed, carriage return and space.  (The white space that UTF-8
    encodes in several bytes is not modelled.) *)
Definition isSpace (c : ascii) : bool := Ascii.is_space c.

Fixpoint TrimLeft (s : string) : string :=
  match s with
  | String c r => if isSpace c then TrimLeft r else s
  | EmptyString => EmptyString
  end.

Fixpoint TrimRight (s : string) : string :=
  match s with
  | EmptyString => EmptyString
  | String c r =>
      match TrimRight r with
      | EmptyString => if isSpace c then EmptyString else String c EmptyString
      | r' => String c r'
      end
  end.

Definition TrimSpace (s : string) : string := TrimRight (TrimLeft s).

Definition lowerByte (c : ascii) : ascii :=
  if (Ascii.leb "A" c && Ascii.leb c "Z")%bool
  then ascii_of_nat (nat_of_ascii c + 32) else c.

(** [strings.ToLower] on the one-byte code points. *)
Fixpoint ToLower (s : string) : string :=
  match s with
  | EmptyString => EmptyString
  | String c r => String (lowerByte c) (ToLower r)
  end.

(** [strings.Fields]: the maximal runs of non-space bytes. *)
Definition Fields (s : string) : list string := String.words s.

(** [strings.Split(s, "\n")]. *)
Fixpoint SplitLines (s : string) : list string :=
  match s with
  | EmptyString => [EmptyString]
  | String c r =>
      if Ascii.eqb c "010" then EmptyString :: SplitLines r
      else match SplitLines r with
           | h :: t => String c h :: t
           | [] => [String c EmptyString]
           end
  end.

(** [strings.Contains]. *)
Fixpoint Contains (s sub : string) : bool :=
  String.prefix sub s ||
  match s with
  | String _ r => Contains r sub
  | EmptyString => false
  end.

(** [strings.ReplaceAll(s, old, new)] for a non-empty [old]: the
    occurrences of [old] are found from left to right and do not overlap.
    [skip] counts the bytes of a match that are still to be dropped. *)
Fixpoint replaceFrom (old new : string) (skip : nat) (s : string) : string :=
  match s with
  | EmptyString => EmptyString
  | String c r =>
      match skip with
      | S k => replaceFrom old new k r
      | O =>
          if String.prefix old s
          then new +:+ replaceFrom old new (String.length old - 1) r
          else String c (replaceFrom old new 0 r)
      end
  end.

(** With an empty [old], Go inserts [new] before every byte and at the
    end. *)
Fixpoint intersperse (new : string) (s : string) : string :=
  match s with
  | EmptyString => new
  | String c r => new +:+ String c (intersperse new r)
  end.

Definition ReplaceAll (s old new : string) : string :=
  match old with
  | EmptyString => intersperse new s
  | _ => replaceFrom old new 0 s
  end.

End GoStrings.

(** ** The parser's types *)

Module Parser.

(** Modelled from the spec: [parser.VarDef], declared outside the
    files at hand.  The spec's VariableDefinition is
    [{name, valueCommand, selectorArgs}]; the code reads them as [Name],
    [Shell] and [Args]. *)
Record VarDef : Type := mkVarDef {
  Name : string;
  Shell : string;
  Args : string
}.

(** Modelled from the spec: a named definition-set of [parser.CheatIndex],
    [{imports, vars}]. *)
Record Module_ : Type := mkModule {
  ModImports : list string;
  ModVars : list VarDef
}.

(** Modelled from the spec: [parser.CheatIndex], of which the code reads
    the map [Modules] from definition-set name to definition-set. *)
Record CheatIndex : Type := mkIndex {
  Modules : gmap string Module_
}.

(** Modelled from the spec: [parser.Cheat], of which the code reads
    [Command], [Imports], [Vars] and writes [Scope]. *)
Record Cheat : Type := mkCheat {
  Command : string;
  Imports : list string;
  Vars : list VarDef;
  Scope : gmap string string
}.

Global Instance VarDef_eq_dec : EqDecision VarDef.
Proof. solve_decision. Defined.

End Parser.

(** ** String utilities of resolve.go *)

Module Scan.

(** [isVarChar]: is [c] valid in a variable name. *)
Definition isVarChar (c : ascii) (first : bool) : bool :=
  if (Ascii.leb "a" c && Ascii.leb c "z"
      || Ascii.leb "A" c && Ascii.leb c "Z"
      || Ascii.eqb c "_")%bool
  then true
  else (negb first && Ascii.leb "0" c && Ascii.leb c "9")%bool.

(** The inner loop of [findCommandVars]:
    [for j < len(cmd) && isVarChar(cmd[j], j == i+1) { j++ }]. *)
Fixpoint nameEnd (fuel : nat) (cmd : string) (i j : nat) : nat :=
  match fuel with
  | O => j
  | S fuel' =>
      match String.get j cmd with
      | Some c =>
          if isVarChar c (j =? i + 1)%nat then nameEnd fuel' cmd i (j + 1) else j
      | None => j
      end
  end.

(** [scope == nil || scope[varName] == ""]; a nil map is [None]. *)
Definition unbound (scope : option (gmap string string)) (varName : string) : bool :=
  match scope with
  | None => true
  | Some m => bool_decide (m !!! varName = "")
  end.

(** The outer loop of [findCommandVars], from index [i] on, with the
    slice [vars] and the set [seen] built so far. *)
Fixpoint scanFrom (fuel : nat) (cmd : string) (scope : option (gmap string string))
    (i : nat) (vars : list string) (seen : gset string) : list string :=
  match fuel with
  | O => vars
  | S fuel' =>
      if negb (i <? String.length cmd)%nat then vars
      else if (negb (bool_decide (String.get i cmd = Some "$"%char))
               || (String.length cmd <=? i + 1)%nat)%bool
      then scanFrom fuel' cmd scope (i + 1) vars seen
      else if ((0 <? i)%nat && bool_decide (String.get (i - 1) cmd = Some "092"%char))%bool
      then scanFrom fuel' cmd scope (i + 1) vars seen
      else
        let j := nameEnd (String.length cmd) cmd i (i + 1) in
        if (i + 1 <? j)%nat then
          let varName := substring (i + 1) (j - (i + 1)) cmd in
          if (negb (bool_decide (varName ∈ seen)) && unbound scope varName)%bool
          then scanFrom fuel' cmd scope (j - 1 + 1) (vars ++ [varName]) ({[varName]} ∪ seen)
          else scanFrom fuel' cmd scope (j - 1 + 1) vars seen
        else scanFrom fuel' cmd scope (j - 1 + 1) vars seen
  end.

(** [findCommandVars]: all [$varname] patterns of a command.  The index
    grows in every round, so [len(cmd)] rounds are enough. *)
Definition findCommandVars (cmd : string) (scope : option (gmap string string))
    : list string :=
  scanFrom (String.length cmd) cmd scope 0 [] ∅.

(** [splitLines]: the non-empty trimmed lines of a text. *)
Definition splitLines (s : string) : list string :=
  foldl (fun lines line =>
           let trimmed := GoStrings.TrimSpace line in
           if bool_decide (trimmed ≠ "") then lines ++ [trimmed] else lines)
        [] (GoStrings.SplitLines s).

End Scan.

(** ** Collecting the variable definitions (resolve.go) *)

Module Collect.
Import Parser.

(** [varState] tracks a variable and its resolved value. *)
Record varState : Type := mkVarState {
  def : VarDef;
  value : string;
  resolved : bool;
  prefill : string
}.

(** What the closure [collectFromImports] reads and writes: the map
    [seen] it is handed (a Go map is a reference, so every call shares
    it) and the captured map [varDefs].  Two logs that the code does not
    keep are carried along to state properties of the traversal: the
    import names in the order in which they were marked seen, and the
    definitions in the order in which the traversal came across them. *)
Record collectState : Type := mkCollectState {
  seen : gset string;
  varDefs : gmap string VarDef;
  visitLog : list string;
  offerLog : list VarDef
}.

Definition markSeen (importName : string) (st : collectState) : collectState :=
  {| seen := {[importName]} ∪ seen st; varDefs := varDefs st;
     visitLog := visitLog st ++ [importName]; offerLog := offerLog st |}.

(** [if _, exists := varDefs[v.Name]; !exists { varDefs[v.Name] = v }] *)
Definition addImported (st : collectState) (v : VarDef) : collectState :=
  {| seen := seen st;
     varDefs := match varDefs st !! Name v with
                | Some _ => varDefs st
                | None => <[Name v := v]> (varDefs st)
                end;
     visitLog := visitLog st; offerLog := offerLog st ++ [v] |}.

(** A [for] loop over a slice whose body may fail to come back. *)
Fixpoint forEach {A S : Type} (body : A -> S -> option S) (l : list A) (s : S)
    : option S :=
  match l with
  | [] => Some s
  | x :: rest =>
      match body x s with
      | Some s' => forEach body rest s'
      | None => None
      end
  end.

(** [collectFromImports]; [depth] bounds the nesting of the recursive
    calls, and [None] is a traversal that needs deeper nesting. *)
Fixpoint collectFromImports (depth : nat) (index : CheatIndex)
    (imports : list string) (st : collectState) : option collectState :=
  match depth with
  | O => None
  | S depth' =>
      forEach
        (fun importName st =>
           if bool_decide (importName ∈ seen st) then Some st
           else
             let st := markSeen importName st in
             match Modules index !! importName with
             | Some module =>
                 match collectFromImports depth' index (ModImports module) st with
                 | Some st => Some (foldl addImported st (ModVars module))
                 | None => None
                 end
             | None => Some st
             end)
        imports st
  end.

Definition emptyState : collectState :=
  {| seen := ∅; varDefs := ∅; visitLog := []; offerLog := [] |}.

(** The nesting that [collectVariables] allows the traversal: one level
    per definition-set of the index, and one for the outermost call. *)
Definition importDepth (index : CheatIndex) : nat := S (size (Modules index)).

(** [for _, v := range cheat.Vars { varDefs[v.Name] = v }] *)
Definition addLocals (varDefs : gmap string VarDef) (locals : list VarDef)
    : gmap string VarDef :=
  foldl (fun m v => <[Name v := v]> m) varDefs locals.

(** The last loop of [collectVariables]. *)
Definition orderedList (varDefs : gmap string VarDef) (usedVars : list string)
    : list varState :=
  foldl (fun vars varName =>
           match varDefs !! varName with
           | Some d => vars ++ [mkVarState d "" false ""]
           | None => vars ++ [mkVarState (mkVarDef varName "" "") "" false ""]
           end)
        [] usedVars.

(** [collectVariables] gathers all variable definitions from imports and
    local.  (The set [usedSet] that the code builds is never read.) *)
Definition collectVariables (cheat : Cheat) (index : CheatIndex)
    : option (list varState) :=
  let usedVars := Scan.findCommandVars (Command cheat) None in
  match collectFromImports (importDepth index) index (Imports cheat) emptyState with
  | Some st => Some (orderedList (addLocals (varDefs st) (Vars cheat)) usedVars)
  | None => None
  end.

(** [buildScope] creates a scope map from resolved variables. *)
Definition buildScope (vars : list varState) : gmap string string :=
  foldl (fun scope vs =>
           if resolved vs then <[Name (def vs) := value vs]> scope else scope)
        ∅ vars.

End Collect.

(** ** The variable selection and input models of the terminal UI *)

Module Tui.

(** The messages of the event loop that the models look at.  A key
    message is identified by what [msg.String()] returns. *)
Inductive Msg : Type :=
| KeyMsg (key : string)
| WindowSizeMsg (Width Height : Z).

(** What the program run observes: a message delivered to [Update], or
    the failure of the run itself. *)
Inductive event : Type :=
| Deliver (msg : Msg)
| RunFails (err : string).

(** The text field is the [textinput.Model] of an external library; the
    models only use it through these operations.  [ti_New] is the field
    as both constructors configure it (placeholder, focus, character
    limit, width). *)
Class TextInput (T : Type) : Type := {
  ti_New : T;
  ti_SetValue : string -> T -> T;
  ti_Value : T -> string;
  ti_SetWidth : Z -> T -> T;
  ti_Update : Msg -> T -> T
}.

(** [minInt] returns the smaller of a and b. *)
Definition minInt (a b : Z) : Z := if (a <? b)%Z then a else b.

(** Modelled from the spec: [maxInt], the larger of its two arguments,
    defined outside the files at hand (the cursor bound is written
    [max(0, count-1)]). *)
Definition maxInt (a b : Z) : Z := if (a <? b)%Z then b else a.

(** Modelled from the spec: [clamp], defined outside the files at hand:
    "cursor clamps to [0, max(0, count-1)]", so [clamp v lo hi] is the
    value of the interval [lo, hi] nearest to [v]. *)
Definition clamp (v lo hi : Z) : Z :=
  if (v <? lo)%Z then lo else if (hi <? v)%Z then hi else v.

(** Modelled from the spec: [matchesAllWords], defined outside the files
    at hand: "a candidate (lowercased) is shown only if it contains all
    required substrings". *)
Definition matchesAllWords (text : string) (words : list string) : bool :=
  forallb (GoStrings.Contains text) words.

(** [len(l)] as a Go int. *)
Definition len {A : Type} (l : list A) : Z := Z.of_nat (length l).

(** [l[i]] for [0 <= i < len(l)], which is where the code indexes. *)
Definition at_index (l : list string) (i : Z) : string := l !!! Z.to_nat i.

Section Models.
Context {T : Type} `{TextInput T}.

(** [varSelectModel] is for selecting from a list of options. *)
Record varSelectModel : Type := mkVarSelectModel {
  varName : string;
  header : string;
  customHeader : string;
  options : list string;
  filtered : list string;
  cursor : Z;
  textInput : T;
  width : Z;
  height : Z;
  selected : string;
  cancelled : bool
}.

Definition newVarSelectModel (varName : string) (options : list string)
    (header customHeader prefill : string) : varSelectModel :=
  let ti := ti_New in
  let ti := if bool_decide (prefill ≠ "") then ti_SetValue prefill ti else ti in
  {| varName := varName; header := header; customHeader := customHeader;
     options := options; filtered := options; cursor := 0; textInput := ti;
     width := 0; height := 0; selected := ""; cancelled := false |}.

Definition setCursor (c : Z) (m : varSelectModel) : varSelectModel :=
  {| varName := varName m; header := header m; customHeader := customHeader m;
     options := options m; filtered := filtered m; cursor := c;
     textInput := textInput m; width := width m; height := height m;
     selected := selected m; cancelled := cancelled m |}.

Definition setFiltered (f : list string) (m : varSelectModel) : varSelectModel :=
  {| varName := varName m; header := header m; customHeader := customHeader m;
     options := options m; filtered := f; cursor := cursor m;
     textInput := textInput m; width := width m; height := height m;
     selected := selected m; cancelled := cancelled m |}.

Definition setTextInput (ti : T) (m : varSelectModel) : varSelectModel :=
  {| varName := varName m; header := header m; customHeader := customHeader m;
     options := options m; filtered := filtered m; cursor := cursor m;
     textInput := ti; width := width m; height := height m;
     selected := selected m; cancelled := cancelled m |}.

Definition setSize (w h : Z) (m : varSelectModel) : varSelectModel :=
  {| varName := varName m; header := header m; customHeader := customHeader m;
     options := options m; filtered := filtered m; cursor := cursor m;
     textInput := textInput m; width := w; height := h;
     selected := selected m; cancelled := cancelled m |}.

Definition setSelected (v : string) (m : varSelectModel) : varSelectModel :=
  {| varName := varName m; header := header m; customHeader := customHeader m;
     options := options m; filtered := filtered m; cursor := cursor m;
     textInput := textInput m; width := width m; height := height m;
     selected := v; cancelled := cancelled m |}.

Definition setCancelled (b : bool) (m : varSelectModel) : varSelectModel :=
  {| varName := varName m; header := header m; customHeader := customHeader m;
     options := options m; filtered := filtered m; cursor := cursor m;
     textInput := textInput m; width := width m; height := height m;
     selected := selected m; cancelled := b |}.

(** [moveCursor] moves the cursor by delta.  The cursor stays between
    0 and the number of options and delta is 1 or -1, so the sum does
    not leave the range of a Go int. *)
Definition moveCursor (m : varSelectModel) (delta : Z) : varSelectModel :=
  let m := setCursor (cursor m + delta) m in
  setCursor (clamp (cursor m) 0 (maxInt 0 (len (filtered m) - 1))) m.

(** [filterOptions] filters options based on the input query. *)
Definition filterOptions (m : varSelectModel) : varSelectModel :=
  let query := GoStrings.TrimSpace (GoStrings.ToLower (ti_Value (textInput m))) in
  let m :=
    if bool_decide (query = "") then setFiltered (options m) m
    else
      let words := GoStrings.Fields query in
      setFiltered
        (foldl (fun acc opt =>
                  if matchesAllWords (GoStrings.ToLower opt) words
                  then acc ++ [opt] else acc)
               [] (options m)) m in
  setCursor (clamp (cursor m) 0 (maxInt 0 (len (filtered m) - 1))) m.

(** [handleKeyPress] processes keyboard input; the boolean tells
    whether the command it returns is [tea.Quit] (the only command it
    returns) or nil. *)
Definition handleKeyPress (m : varSelectModel) (key : string)
    : varSelectModel * bool :=
  if bool_decide (key = "ctrl+c") then
    (setSelected "__EXIT__" (setCancelled true m), true)
  else if bool_decide (key = "esc") then
    (setCancelled true m, true)
  else if bool_decide (key = "enter") then
    (if (cursor m <? len (filtered m))%Z
     then setSelected (at_index (filtered m) (cursor m)) m
     else setSelected (ti_Value (textInput m)) m, true)
  else if bool_decide (key = "up" ∨ key = "ctrl+p") then
    (moveCursor m (-1), false)
  else if bool_decide (key = "down" ∨ key = "ctrl+n") then
    (moveCursor m 1, false)
  else if bool_decide (key = "tab") then
    (if (cursor m <? len (filtered m))%Z
     then setTextInput (ti_SetValue (at_index (filtered m) (cursor m)) (textInput m)) m
     else m, false)
  else (m, false).

(** [Update] of the selection model; the boolean tells whether the
    returned command quits the program. *)
Definition Update (m : varSelectModel) (msg : Msg) : varSelectModel * bool :=
  let '(m, quit) :=
    match msg with
    | KeyMsg key => handleKeyPress m key
    | WindowSizeMsg w h =>
        (setTextInput (ti_SetWidth (w - 4) (textInput m)) (setSize w h m), false)
    end in
  if quit then (m, true)
  else
    let m := setTextInput (ti_Update msg (textInput m)) m in
    (filterOptions m, false).

(** [varInputModel] is for entering a custom value (no options list). *)
Record varInputModel : Type := mkVarInputModel {
  in_varName : string;
  in_header : string;
  in_customHeader : string;
  in_textInput : T;
  in_width : Z;
  in_height : Z;
  in_value : string;
  in_cancelled : bool
}.

Definition newVarInputModel (varName header customHeader prefill : string)
    : varInputModel :=
  let ti := ti_New in
  let ti := if bool_decide (prefill ≠ "") then ti_SetValue prefill ti else ti in
  {| in_varName := varName; in_header := header; in_customHeader := customHeader;
     in_textInput := ti; in_width := 0; in_height := 0; in_value := "";
     in_cancelled := false |}.

Definition in_handleKeyPress (m : varInputModel) (key : string)
    : varInputModel * bool :=
  if bool_decide (key = "ctrl+c") then
    ({| in_varName := in_varName m; in_header := in_header m;
        in_customHeader := in_customHeader m; in_textInput := in_textInput m;
        in_width := in_width m; in_height := in_height m;
        in_value := "__EXIT__"; in_cancelled := true |}, true)
  else if bool_decide (key = "esc") then
    ({| in_varName := in_varName m; in_header := in_header m;
        in_customHeader := in_customHeader m; in_textInput := in_textInput m;
        in_width := in_width m; in_height := in_height m;
        in_value := in_value m; in_cancelled := true |}, true)
  else if bool_decide (key = "enter") then
    ({| in_varName := in_varName m; in_header := in_header m;
        in_customHeader := in_customHeader m; in_textInput := in_textInput m;
        in_width := in_width m; in_height := in_height m;
        in_value := ti_Value (in_textInput m); in_cancelled := in_cancelled m |}, true)
  else (m, false).

Definition in_setTextInput (ti : T) (m : varInputModel) : varInputModel :=
  {| in_varName := in_varName m; in_header := in_header m;
     in_customHeader := in_customHeader m; in_textInput := ti;
     in_width := in_width m; in_height := in_height m;
     in_value := in_value m; in_cancelled := in_cancelled m |}.

(** [Update] of the input model. *)
Definition in_Update (m : varInputModel) (msg : Msg) : varInputModel * bool :=
  let '(m, quit) :=
    match msg with
    | KeyMsg key => in_handleKeyPress m key
    | WindowSizeMsg w h =>
        ({| in_varName := in_varName m; in_header := in_header m;
            in_customHeader := in_customHeader m;
            in_textInput := ti_SetWidth (w - 4) (in_textInput m);
            in_width := w; in_height := h;
            in_value := in_value m; in_cancelled := in_cancelled m |}, false)
    end in
  if quit then (m, true)
  else (in_setTextInput (ti_Update msg (in_textInput m)) m, false).

(** [p.Run()]: the event loop hands every message to [Update] until a
    quit command comes back, and returns the model it ended with; it
    can also fail.  With no event left the program waits for input:
    there is no result ([None]). *)
Fixpoint runProgram {M : Type} (update : M -> Msg -> M * bool) (m : M)
    (events : list event) : option ((M + string) * list event) :=
  match events with
  | [] => None
  | RunFails err :: rest => Some (inr err, rest)
  | Deliver msg :: rest =>
      let '(m', quit) := update m msg in
      if quit then Some (inl m', rest) else runProgram update m' rest
  end.

(** The triple [(value, goBack, err)] that the two entry points
    return. *)
Definition result : Type := string * bool * option string.

(** [SelectWithTUI] displays options for variable selection. *)
Definition SelectWithTUI (varName : string) (options : list string)
    (header customHeader prefill : string) (events : list event)
    : option (result * list event) :=
  let m := newVarSelectModel varName options header customHeader prefill in
  match runProgram Update m events with
  | None => None
  | Some (inr err, rest) => Some (("", false, Some err), rest)
  | Some (inl final, rest) =>
      if bool_decide (selected final = "__EXIT__")
      then Some (("__EXIT__", false, None), rest)
      else if cancelled final then Some (("", true, None), rest)
      else Some ((selected final, false, None), rest)
  end.

(** [PromptWithTUI] displays an input prompt for variable entry. *)
Definition PromptWithTUI (varName header customHeader prefill : string)
    (events : list event) : option (result * list event) :=
  let m := newVarInputModel varName header customHeader prefill in
  match runProgram in_Update m events with
  | None => None
  | Some (inr err, rest) => Some (("", false, Some err), rest)
  | Some (inl final, rest) =>
      if bool_decide (in_value final = "__EXIT__")
      then Some (("__EXIT__", false, None), rest)
      else if in_cancelled final then Some (("", true, None), rest)
      else Some ((in_value final, false, None), rest)
  end.

End Models.

Arguments varSelectModel T : clear implicits.
Arguments varInputModel T : clear implicits.

End Tui.

(** ** Resolving the variables of a command (resolve.go) *)

Module Resolve.
Import Parser Collect Tui.

(** The collaborators of the resolution: the executor's [RunShell]
    (output or error), [os.Getenv], the order in which a [range] over a
    scope map yields its entries (Go leaves it open; any enumeration of
    the entries is possible), and the [Render] methods of the four global
    styles that the progress header uses. *)
Record Env : Type := mkEnv {
  RunShell : string -> string + string;
  Getenv : string -> string;
  rangeOrder : gmap string string -> list (string * string);
  rangeOrder_perm : forall m, rangeOrder m ≡ₚ map_to_list m;
  styleHeader : string -> string;
  styleCursor : string -> string;
  styleCommand : string -> string;
  styleDim : string -> string
}.

(** The parser state of [parseShellArgs]. *)
Record argState : Type := mkArgState {
  args : list string;
  current : string;
  inQuote : bool;
  quoteChar : ascii
}.

Definition argStep (st : argState) (c : ascii) : argState :=
  if inQuote st then
    if Ascii.eqb c (quoteChar st)
    then mkArgState (args st) (current st) false (quoteChar st)
    else mkArgState (args st) (current st +:+ String c "") true (quoteChar st)
  else if (Ascii.eqb c "034" || Ascii.eqb c "039")%bool then
    mkArgState (args st) (current st) true c
  else if (Ascii.eqb c " " || Ascii.eqb c "009")%bool then
    if (0 <? String.length (current st))%nat
    then mkArgState (args st ++ [current st]) "" false (quoteChar st)
    else st
  else mkArgState (args st) (current st +:+ String c "") false (quoteChar st).

(** [parseShellArgs] parses a string into arguments, respecting quotes. *)
Definition parseShellArgs (s : string) : list string :=
  let st := foldl argStep (mkArgState [] "" false "000") (list_ascii_of_string s) in
  if (0 <? String.length (current st))%nat then args st ++ [current st] else args st.

(** The loop of [extractCustomHeader]: the argument after the first
    ["--header"] that has one. *)
Fixpoint headerArg (args : list string) : string :=
  match args with
  | a :: rest =>
      match rest with
      | b :: _ => if bool_decide (a = "--header") then b else headerArg rest
      | [] => ""
      end
  | [] => ""
  end.

(** [extractCustomHeader] parses --header from selector args. *)
Definition extractCustomHeader (selectorArgs : string) : string :=
  if bool_decide (selectorArgs = "") then ""
  else headerArg (parseShellArgs selectorArgs).

(** The class [\w] of the regular expressions. *)
Definition isWord (c : ascii) : bool :=
  (Ascii.leb "a" c && Ascii.leb c "z" || Ascii.leb "A" c && Ascii.leb c "Z"
   || Ascii.leb "0" c && Ascii.leb c "9" || Ascii.eqb c "_")%bool.

Definition lastByte (s : string) : option ascii :=
  match String.length s with
  | O => None
  | S n => String.get n s
  end.

(** [\b] after the literal [pat] matched at the head of [s]: exactly one
    of the bytes before and after the position is a word byte. *)
Definition boundaryAfter (pat s : string) : bool :=
  xorb (match lastByte pat with Some c => isWord c | None => false end)
       (match String.get (String.length pat) s with Some c => isWord c | None => false end).

Fixpoint replaceVarFrom (pat replacement : string) (skip : nat) (s : string) : string :=
  match s with
  | EmptyString => EmptyString
  | String c r =>
      match skip with
      | S k => replaceVarFrom pat replacement k r
      | O =>
          if (String.prefix pat s && boundaryAfter pat s)%bool
          then replacement +:+ replaceVarFrom pat replacement (String.length pat - 1) r
          else String c (replaceVarFrom pat replacement 0 r)
      end
  end.

(** [replaceVar] replaces $varname in cmd with replacement: every match
    of the pattern [\$varname\b], the name taken literally. *)
Definition replaceVar (cmd varName replacement : string) : string :=
  replaceVarFrom ("$" +:+ varName) replacement 0 cmd.

(** Go's [for name, value := range scope] with
    [shellCmd = strings.ReplaceAll(shellCmd, "$"+name, value)] as body,
    for the order [entries] in which the range yields the map. *)
Definition substituteScope (entries : list (string * string)) (shellCmd : string)
    : string :=
  foldl (fun shellCmd '(name, value) =>
           GoStrings.ReplaceAll shellCmd ("$" +:+ name) value)
        shellCmd entries.

(** The outcome of a run of [resolveAllVariables]: it returns
    [(goBackToMain, err)], with the cheat as the run leaves it; or the process
    exits ([os.Exit(0)]); or it waits for input that never comes; or an
    index is out of range. *)
Inductive outcome : Type :=
| Returned (goBackToMain : bool) (err : option string) (cheat : Cheat)
| Exited
| Blocked
| Panicked.

(** One round of the loop either goes on with new [vars], [currentIdx]
    and pending events, or ends the run. *)
Inductive round : Type :=
| Continue (vars : list varState) (currentIdx : Z) (events : list event)
| Stop (r : outcome).

Section Session.
Context {T : Type} `{TextInput T} (env : Env).

(** [buildProgressHeader] creates a header showing command progress. *)
Definition buildProgressHeader (cmd : string) (vars : list varState)
    (currentIdx : Z) : string :=
  let progressCmd :=
    foldl (fun progressCmd '(i, vs) =>
             if resolved vs then
               replaceVar progressCmd (Name (def vs)) (styleHeader env (value vs))
             else if bool_decide (Z.of_nat i = currentIdx) then
               replaceVar progressCmd (Name (def vs))
                 (styleCursor env ("$" +:+ Name (def vs)))
             else progressCmd)
          cmd (imap pair vars) in
  foldl (fun sb '(i, vs) =>
           let sb := sb +:+ String "010" "" in
           if resolved vs then
             sb +:+ styleCommand env "✓" +:+ " "
                +:+ styleDim env ("$" +:+ Name (def vs)) +:+ " = "
                +:+ styleHeader env (value vs)
           else if bool_decide (Z.of_nat i = currentIdx) then
             sb +:+ styleCursor env ("▶ $" +:+ Name (def vs))
           else sb +:+ styleDim env ("○ $" +:+ Name (def vs)))
        progressCmd (imap pair vars).

(** [resolveVar] resolves a single variable using the TUI. *)
Definition resolveVar (v : VarDef) (scope : gmap string string)
    (header prefill : string) (events : list event)
    : option (result * list event) :=
  let customHeader := extractCustomHeader (Args v) in
  if bool_decide (GoStrings.TrimSpace (Shell v) = "") then
    PromptWithTUI (Name v) header customHeader prefill events
  else
    let shellCmd := substituteScope (rangeOrder env scope) (Shell v) in
    match RunShell env shellCmd with
    | inr _ => PromptWithTUI (Name v) header customHeader prefill events
    | inl output =>
        let lines := Scan.splitLines output in
        match length lines with
        | 0 | 1 => PromptWithTUI (Name v) header customHeader prefill events
        | _ => SelectWithTUI (Name v) lines header customHeader prefill events
        end
    end.

Definition setResolved (value : string) (vs : varState) : varState :=
  {| def := def vs; value := value; resolved := true; prefill := prefill vs |}.

(** [vars[i].resolved = false; vars[i].value = ""] *)
Definition setPending (vs : varState) : varState :=
  {| def := def vs; value := ""; resolved := false; prefill := prefill vs |}.

(** The body of the loop of [resolveAllVariables].  [currentIdx] stays
    between -1 and [len(vars)], so its steps by one do not leave the
    range of a Go int. *)
Definition loopBody (cheat : Cheat) (vars : list varState) (currentIdx : Z)
    (events : list event) : round :=
  if (currentIdx <? 0)%Z then Stop (Returned true None cheat)
  else
    match vars !! Z.to_nat currentIdx with
    | None => Stop Panicked
    | Some vs =>
        if resolved vs then Continue vars (currentIdx + 1) events
        else
          let scope := buildScope vars in
          let header := buildProgressHeader (Command cheat) vars currentIdx in
          match resolveVar (def vs) scope header (prefill vs) events with
          | None => Stop Blocked
          | Some ((_, _, Some err), _) => Stop (Returned false (Some err) cheat)
          | Some ((value, goBack, None), events) =>
              if bool_decide (value = "__EXIT__") then Stop Exited
              else if goBack then
                let currentIdx := (currentIdx - 1)%Z in
                if (0 <=? currentIdx)%Z
                then Continue (alter setPending (Z.to_nat currentIdx) vars)
                              currentIdx events
                else Continue vars currentIdx events
              else
                Continue (<[Z.to_nat currentIdx := setResolved value vs]> vars)
                         (currentIdx + 1) events
          end
    end.

(** [for _, vs := range vars { if vs.resolved { cheat.Scope[...] = vs.value } }] *)
Definition copyToScope (cheat : Cheat) (vars : list varState) : Cheat :=
  {| Command := Command cheat; Imports := Imports cheat; Vars := Vars cheat;
     Scope := foldl (fun scope vs =>
                       if resolved vs then <[Name (def vs) := value vs]> scope
                       else scope)
                    (Scope cheat) vars |}.

(** The loop [for currentIdx < len(vars) { ... }] and what follows it.
    [rounds] bounds the number of rounds; [None] is a run that needs
    more. *)
Fixpoint resolveLoop (rounds : nat) (cheat : Cheat) (vars : list varState)
    (currentIdx : Z) (events : list event) : option outcome :=
  match rounds with
  | O => None
  | S rounds' =>
      if (currentIdx <? len vars)%Z then
        match loopBody cheat vars currentIdx events with
        | Continue vars currentIdx events =>
            resolveLoop rounds' cheat vars currentIdx events
        | Stop r => Some r
        end
      else Some (Returned false None (copyToScope cheat vars))
  end.

(** [vars[i].prefill = envVal] when the environment has a non-empty
    value for the name. *)
Definition prefillFromEnv (vs : varState) : varState :=
  let envVal := Getenv env (Name (def vs)) in
  if bool_decide (envVal ≠ "")
  then {| def := def vs; value := value vs; resolved := resolved vs; prefill := envVal |}
  else vs.

(** Every round that does not end the run either takes an event or
    moves the index forward over a resolved variable: this many rounds
    are enough (lemma [resolveLoop_returns]). *)
Definition roundBound (vars : list varState) (events : list event) : nat :=
  S (S (length events) * S (length vars)).

(** [resolveAllVariables] resolves all variables with back navigation
    support. *)
Definition resolveAllVariables (cheat : Cheat) (index : CheatIndex)
    (events : list event) : option outcome :=
  match collectVariables cheat index with
  | None => None
  | Some vars =>
      if bool_decide (length vars = 0) then Some (Returned false None cheat)
      else
        let vars := prefillFromEnv <$> vars in
        resolveLoop (roundBound vars events) cheat vars 0 events
  end.

End Session.

End Resolve.

(** * Output of the final command (resolve.go) *)

Module Output.

(** What the output stage reads from outside: the pre-hook, post-hook and
    output mode of the configuration, whether [exec.LookPath] finds a
    program, the error (or none) of the executor's [Execute] on a command,
    and the error (or none) of running a program with arguments on a
    standard input. *)
Record System : Type := mkSystem {
  GetPreHook : string;
  GetPostHook : string;
  GetOutput : string;
  LookPath : string -> bool;
  Execute : string -> option string;
  RunCommand : string -> list string -> string -> option string
}.

(** What the output stage does, in order. *)
Inductive effect : Type :=
| Stderr (text : string)
| Stdout (text : string)
| Executed (cmd : string)
| Ran (name : string) (args : list string) (stdin : string).

(** [commandExists] checks if a command is available in PATH. *)
Definition commandExists (sys : System) (name : string) : bool := LookPath sys name.

(** [copyToClipboard] copies text to the system clipboard. *)
Definition copyToClipboard (sys : System) (text : string)
    : list effect * option string :=
  let run name args := ([Ran name args text], RunCommand sys name args text) in
  if commandExists sys "wl-copy" then run "wl-copy" []
  else if commandExists sys "xclip" then run "xclip" ["-selection"; "clipboard"]
  else if commandExists sys "xsel" then run "xsel" ["--clipboard"; "--input"]
  else if commandExists sys "pbcopy" then run "pbcopy" []
  else ([Stdout text], None).

Definition esc : string := String "027" "".

(** [executeOutput] handles the final command based on output mode. *)
Definition executeOutput (sys : System) (command : string)
    : list effect * option string :=
  let finalCmd := command in
  let finalCmd :=
    if bool_decide (GetPreHook sys ≠ "") then GetPreHook sys +:+ finalCmd else finalCmd in
  let finalCmd :=
    if bool_decide (GetPostHook sys ≠ "") then finalCmd +:+ GetPostHook sys else finalCmd in
  if bool_decide (GetOutput sys = "exec") then
    ([Stderr (esc +:+ "[1;32m▶ Executing:" +:+ esc +:+ "[0m " +:+ finalCmd +:+ String "010" "");
      Executed finalCmd],
     Execute sys finalCmd)
  else if bool_decide (GetOutput sys = "copy") then
    match copyToClipboard sys finalCmd with
    | (effects, Some err) => (effects, Some err)
    | (effects, None) =>
        (effects ++ [Stderr (esc +:+ "[1;33m✓ Copied to clipboard" +:+ esc +:+ "[0m"
                             +:+ String "010" "")],
         None)
    end
  else ([Stdout finalCmd], None).

End Output.

(** ** The pattern scanner as the specification words it *)

Module ScanSpec.

Definition isLetter (c : ascii) : bool :=
  (Ascii.leb "a" c && Ascii.leb c "z" || Ascii.leb "A" c && Ascii.leb c "Z")%bool.

Definition isDigit (c : ascii) : bool := (Ascii.leb "0" c && Ascii.leb c "9")%bool.

(** A variable name starts with a letter or underscore ... *)
Definition identStart (c : ascii) : bool := (isLetter c || Ascii.eqb c "_")%bool.

(** ... and continues with letters, digits, or underscores. *)
Definition identChar (c : ascii) : bool :=
  (isLetter c || isDigit c || Ascii.eqb c "_")%bool.

Fixpoint takeWhile (p : ascii -> bool) (s : string) : string :=
  match s with
  | String c r => if p c then String c (takeWhile p r) else EmptyString
  | EmptyString => EmptyString
  end.

(** The longest variable name that [s] starts with, empty if none. *)
Definition nameAtHead (s : string) : string :=
  match s with
  | String c r => if identStart c then String c (takeWhile identChar r) else EmptyString
  | EmptyString => EmptyString
  end.

(** [s] without its first [n] bytes. *)
Fixpoint dropBytes (n : nat) (s : string) : string :=
  match n with
  | O => s
  | S n' => match s with
            | String _ r => dropBytes n' r
            | EmptyString => EmptyString
            end
  end.

(** The [$name] token at byte [i] of the template, if there is one: a
    dollar that no backslash immediately precedes, followed by a name. *)
Definition referenceAt (cmd : string) (i : nat) : option string :=
  if (bool_decide (String.get i cmd = Some "$"%char)
      && negb ((0 <? i)%nat && bool_decide (String.get (i - 1) cmd = Some "092"%char)))%bool
  then
    let name := nameAtHead (dropBytes (i + 1) cmd) in
    if bool_decide (name = "") then None else Some name
  else None.

(** The names of all tokens, in the order of their occurrence. *)
Definition references (cmd : string) : list string :=
  omap (referenceAt cmd) (seq 0 (String.length cmd)).

(** The distinct elements of a list, in the order of their first
    occurrence. *)
Fixpoint distinct (l : list string) : list string :=
  match l with
  | [] => []
  | x :: r => x :: filter (fun y => y ≠ x) (distinct r)
  end.

(** A name is excluded when the known scope binds it to a non-empty
    value. *)
Definition boundNonEmpty (scope : option (gmap string string)) (name : string) : Prop :=
  exists m v, scope = Some m /\ m !! name = Some v /\ v ≠ "".

Global Instance boundNonEmpty_dec scope name : Decision (boundNonEmpty scope name).
Proof.
  destruct scope as [m|].
  - destruct (m !! name) as [v|] eqn:E.
    + destruct (decide (v = "")) as [->|Hv].
      * right. intros (m' & v' & [= <-] & Hv' & Hne). congruence.
      * left. exists m, v. done.
    + right. intros (m' & v' & [= <-] & Hv' & Hne). congruence.
  - right. intros (m' & v' & [=] & _).
Defined.

Definition scanner (cmd : string) (scope : option (gmap string string)) : list string :=
  distinct (filter (fun name => ¬ boundNonEmpty scope name) (references cmd)).

End ScanSpec.

(** * Notions used to state the properties *)

Module Notions.
Import Parser Scan ScanSpec Collect Tui Resolve.

(** What one token does to the slice and the set of the scanner. *)
Definition accumulate (scope : option (gmap string string))
    (acc : list string * gset string) (name : string) : list string * gset string :=
  if (negb (bool_decide (name ∈ snd acc)) && unbound scope name)%bool
  then (fst acc ++ [name], {[name]} ∪ snd acc) else acc.

(** The names that a traversal has marked are marked once. *)
Definition visitedOnce (st : collectState) : Prop :=
  NoDup (visitLog st) /\ forall x, x ∈ visitLog st -> x ∈ seen st.

(** The definition-sets of the index that are not marked yet. *)
Definition unseen (index : CheatIndex) (st : collectState) : nat :=
  size (dom (Modules index) ∖ seen st).

(** The definitions of a list that carry a given name. *)
Definition named (name : string) (l : list VarDef) : list VarDef :=
  filter (fun v => Name v = name) l.

(** The definition that stands for a variable defined nowhere: its name
    and no value-generating command. *)
Definition synthetic (name : string) : VarDef := mkVarDef name "" "".

(** The definition of a name, given the local definitions and the imported
    ones in the order in which the traversal of the imports meets them: a
    local one if there is any (the last, if several carry the name),
    otherwise the first imported one, otherwise the synthetic one. *)
Definition chosen (locals imported : list VarDef) (name : string) : VarDef :=
  match last (named name locals) with
  | Some d => d
  | None => match head (named name imported) with
            | Some d => d
            | None => synthetic name
            end
  end.

(** The map of the traversal holds, for each name, the first definition
    that the traversal met. *)
Definition firstOffered (st : collectState) : Prop :=
  forall name, varDefs st !! name = head (named name (offerLog st)).

(** The non-empty whitespace-trimmed lines of a text, in order. *)
Definition trimmedLines (s : string) : list string :=
  filter (fun line => line ≠ "") (GoStrings.TrimSpace <$> GoStrings.SplitLines s).

(** [tok] occurs in [s]. *)
Definition substringOf (tok s : string) : Prop :=
  exists pre post, s = pre +:+ tok +:+ post.



(** The interactive component that a variable is resolved with. *)
Inductive component : Type :=
| FreeText
| Selector (candidates : list string).

(** The three keys that end the run of a component. *)
Definition quits (msg : Msg) : Prop :=
  msg = KeyMsg "ctrl+c" \/ msg = KeyMsg "esc" \/ msg = KeyMsg "enter".

(** The model after a sequence of messages. *)
Definition afterMessages {M : Type} (update : M -> Msg -> M * bool) (m : M)
    (msgs : list Msg) : M :=
  foldl (fun m msg => fst (update m msg)) m msgs.

(** An outcome is an error, the exit sentinel, go-back or a value. *)
Definition tagged (res : result) : Prop :=
  (exists err, res = ("", false, Some err))
  \/ res = ("__EXIT__", false, None)
  \/ res = ("", true, None)
  \/ (exists v, v ≠ "__EXIT__" /\ res = (v, false, None)).

Section Components.
Context {T : Type} `{TextInput T}.



(** The component that [resolveVar] starts for a definition. *)
Definition componentFor (env : Env) (v : VarDef) (scope : gmap string string)
    : component :=
  if bool_decide (GoStrings.TrimSpace (Shell v) = "") then FreeText
  else
    match RunShell env (substituteScope (rangeOrder env scope) (Shell v)) with
    | inr _ => FreeText
    | inl output =>
        match splitLines output with
        | [] | [_] => FreeText
        | lines => Selector lines
        end
    end.

(** What the enter key submits after the messages [quiet]: the text of
    the field of the input prompt; in the selector the candidate under the
    cursor, or the text of the field when there is none. *)
Definition submittedValue (c : component) (name header customHeader prefill : string)
    (quiet : list Msg) : string :=
  match c with
  | FreeText =>
      ti_Value (in_textInput
        (afterMessages in_Update (newVarInputModel name header customHeader prefill) quiet))
  | Selector candidates =>
      let m := afterMessages Update
                 (newVarSelectModel name candidates header customHeader prefill) quiet in
      if (cursor m <? len (filtered m))%Z then at_index (filtered m) (cursor m)
      else ti_Value (textInput m)
  end.

Definition runComponent (c : component) (name header customHeader prefill : string)
    (events : list event) : option (result * list event) :=
  match c with
  | FreeText => PromptWithTUI name header customHeader prefill events
  | Selector candidates => SelectWithTUI name candidates header customHeader prefill events
  end.


End Components.

End Notions.

(** * Inputs for the examples *)

Module Sample.
Import Parser Collect Tui Resolve.

Definition dropLast (s : string) : string :=
  substring 0 (String.length s - 1) s.

(** A text field for the examples: it holds its text, a key message of
    one byte types that byte at the end, and the backspace key deletes the
    last byte. *)
Global Instance plainField : TextInput string := {|
  ti_New := "";
  ti_SetValue := fun s _ => s;
  ti_Value := fun s => s;
  ti_SetWidth := fun _ s => s;
  ti_Update := fun msg s =>
    match msg with
    | KeyMsg key =>
        if bool_decide (key = "backspace") then dropLast s
        else if (String.length key =? 1)%nat then s +:+ key
        else s
    | WindowSizeMsg _ _ => s
    end
|}.

Definition newline : string := String "010" "".

(** An environment for the examples: one command prints three lines, one
    a single line, every other command fails; no variable is set in the
    process environment; a range over a map yields its entries in the
    order of [map_to_list]; the styles render a text as it is. *)
Definition sampleEnv : Env := {|
  RunShell := fun cmd =>
    if bool_decide (cmd = "list-envs")
    then inl ("a" +:+ newline +:+ "b" +:+ newline +:+ "c" +:+ newline)
    else if bool_decide (cmd = "hostname") then inl ("box" +:+ newline)
    else inr "exit status 127";
  Getenv := fun _ => "";
  rangeOrder := map_to_list;
  rangeOrder_perm := fun m => reflexivity (map_to_list m);
  styleHeader := id; styleCursor := id; styleCommand := id; styleDim := id
|}.

Definition press (k : string) : event := Deliver (KeyMsg k).

(** A command with two variables: the first has a value-generating
    command, the second is defined nowhere. *)
Definition deployCheat : Cheat :=
  mkCheat "deploy $env to $region" [] [mkVarDef "env" "list-envs" ""] ∅.

Definition emptyIndex : CheatIndex := mkIndex ∅.

(** The two variables of [deployCheat], the first resolved, the session
    at the second. *)
Definition envDef : VarDef := mkVarDef "env" "list-envs" "".
Definition regionDef : VarDef := mkVarDef "region" "" "".
Definition deployVars : list varState :=
  [mkVarState envDef "b" true ""; mkVarState regionDef "" false ""].

(** A command with one free-text variable. *)
Definition echoCheat : Cheat := mkCheat "echo $msg" [] [] ∅.
Definition msgDef : VarDef := mkVarDef "msg" "" "".
Definition echoVars : list varState := [mkVarState msgDef "" false ""].

(** The user types the text __EXIT__. *)
Definition typesExit : list Msg :=
  [KeyMsg "_"; KeyMsg "_"; KeyMsg "E"; KeyMsg "X"; KeyMsg "I"; KeyMsg "T";
   KeyMsg "_"; KeyMsg "_"].

(** Two definition-sets that import each other; both define [x]. *)
Definition cyclicIndex : CheatIndex :=
  mkIndex (<["A" := mkModule ["B"] [mkVarDef "x" "from-A" ""]]>
           (<["B" := mkModule ["A"] [mkVarDef "x" "from-B" ""; mkVarDef "y" "from-B" ""]]> ∅)).

Definition cyclicCheat : Cheat :=
  mkCheat "run $x $y $z" ["A"; "B"; "missing"] [mkVarDef "y" "local" ""] ∅.

(** A scope in which one name is a proper prefix of the other. *)
Definition prefixScope : gmap string string :=
  <["env" := "prod"]> (<["environment" := "staging"]> ∅).

End Sample.

(** * Notions used to state further properties *)

Module Shapes.
Import Parser Scan ScanSpec Collect Tui Resolve Output Sample.

(** Byte [c] does not occur in [s]. *)
Fixpoint noByte (c : ascii) (s : string) : bool :=
  match s with
  | EmptyString => true
  | String c' r => (negb (Ascii.eqb c' c) && noByte c r)%bool
  end.


(** A variable name as [isVarChar] accepts it: a first byte that is valid
    in first position and then bytes that are valid further on. *)
Definition acceptedName (name : string) : Prop :=
  exists c r, name = String c r
    /\ isVarChar c true = true
    /\ forall k c', String.get k r = Some c' -> isVarChar c' false = true.


(** The state in which [parseShellArgs] starts. *)
Definition argStart : argState := mkArgState [] "" false "000".

(** The state of [parseShellArgs] after the bytes of [s]. *)
Definition argStateAfter (s : string) : argState :=
  foldl argStep argStart (list_ascii_of_string s).

(** What [parseShellArgs] returns from a state: the arguments, and the
    current one if it is not empty. *)
Definition argFinish (st : argState) : list string :=
  if (0 <? String.length (current st))%nat then args st ++ [current st] else args st.

(** Two parser states that differ in the arguments before [args0] only
    (and in the quote byte, which is read inside a quotation only). *)
Definition argRel (args0 : list string) (st1 st2 : argState) : Prop :=
  args st1 = args0 ++ args st2
  /\ current st1 = current st2
  /\ inQuote st1 = inQuote st2
  /\ (inQuote st1 = true -> quoteChar st1 = quoteChar st2).

(** A variable of the list is resolved under this name with this value. *)
Definition resolvedAs (vars : list varState) (name v : string) : Prop :=
  exists vs, vs ∈ vars /\ resolved vs = true /\ Name (def vs) = name /\ value vs = v.

(** The index has a definition-set of this name. *)
Definition known (index : CheatIndex) (name : string) : Prop :=
  is_Some (Modules index !! name).

(** Two traversal states with the same definitions that agree on which
    definition-sets of the index are marked. *)
Definition sameKnown (index : CheatIndex) (st1 st2 : collectState) : Prop :=
  varDefs st1 = varDefs st2
  /\ offerLog st1 = offerLog st2
  /\ forall name, known index name -> name ∈ seen st1 <-> name ∈ seen st2.

(** The command with other imports. *)
Definition withImports (cheat : Cheat) (imports : list string) : Cheat :=
  mkCheat (Command cheat) imports (Vars cheat) (Scope cheat).

(** The final command: the pre-hook, the command and the post-hook of the
    configuration in this order. *)
Definition finalCommand (sys : System) (command : string) : string :=
  GetPreHook sys +:+ command +:+ GetPostHook sys.


(** The clipboard programs in the order in which they are tried, with
    their arguments. *)
Definition clipboardPrograms : list (string * list string) :=
  [("wl-copy", []); ("xclip", ["-selection"; "clipboard"]);
   ("xsel", ["--clipboard"; "--input"]); ("pbcopy", [])].

(** The notice that the copy mode writes to the standard error. *)
Definition copiedNotice : string :=
  esc +:+ "[1;33m✓ Copied to clipboard" +:+ esc +:+ "[0m" +:+ newline.

(** A style that renders a text without a line feed as a text without a
    line feed. *)
Definition keepsLine (render : string -> string) : Prop :=
  forall s, noByte "010" s = true -> noByte "010" (render s) = true.

(** A variable whose name and value have no line feed. *)
Definition oneLine (vs : varState) : Prop :=
  noByte "010" (Name (def vs)) = true /\ noByte "010" (value vs) = true.

(** A system for the examples: the copy mode with a pre-hook and no
    post-hook, xsel is the only clipboard program that is found, and it
    runs without error. *)
Definition copySystem : System :=
  mkSystem "sudo " "" "copy" (fun name => bool_decide (name = "xsel"))
    (fun _ => None) (fun _ _ _ => None).

End Shapes.

(** * Properties *)

Import Parser Scan ScanSpec Collect Tui Resolve Notions Sample.
Import Output Shapes.

(** ** The pattern scanner *)

Lemma isVarChar_first c : isVarChar c true = identStart c.
Proof.
  unfold isVarChar, identStart, isLetter.
  destruct (Ascii.leb "a" c), (Ascii.leb c "z"), (Ascii.leb "A" c),
    (Ascii.leb c "Z"), (Ascii.eqb c "_"); reflexivity.
Qed.

Lemma isVarChar_rest c : isVarChar c false = identChar c.
Proof.
  unfold isVarChar, identChar, isLetter, isDigit.
  destruct (Ascii.leb "a" c), (Ascii.leb c "z"), (Ascii.leb "A" c),
    (Ascii.leb c "Z"), (Ascii.eqb c "_"), (Ascii.leb "0" c), (Ascii.leb c "9");
    reflexivity.
Qed.

Lemma identChar_not_dollar c : identChar c = true -> c ≠ "$"%char.
Proof. intros Hc ->. vm_compute in Hc. discriminate. Qed.

Lemma identStart_identChar c : identStart c = true -> identChar c = true.
Proof.
  unfold identStart, identChar. destruct (isLetter c), (Ascii.eqb c "_"), (isDigit c); done.
Qed.

Lemma dropBytes_nil n : dropBytes n "" = "".
Proof. by destruct n. Qed.

Lemma get_dropBytes j s :
  String.get j s = match dropBytes j s with String c _ => Some c | EmptyString => None end.
Proof.
  revert s. induction j as [|j IH]; intros [|c r]; simpl; auto.
Qed.

Lemma dropBytes_S j s :
  dropBytes (S j) s = match dropBytes j s with String _ r => r | EmptyString => "" end.
Proof.
  revert s. induction j as [|j IH]; intros [|c r]; try done.
  change (dropBytes (S (S j)) (String c r)) with (dropBytes (S j) r).
  rewrite IH. done.
Qed.

Lemma length_dropBytes j s : String.length (dropBytes j s) = String.length s - j.
Proof.
  revert s. induction j as [|j IH]; intros [|c r]; simpl; auto with lia.
Qed.

Lemma substring_dropBytes j n s : substring j n s = substring 0 n (dropBytes j s).
Proof.
  revert s. induction j as [|j IH]; intros [|c r]; simpl; auto.
  by destruct n.
Qed.

Lemma app_String c p t : String c p +:+ t = String c (p +:+ t).
Proof. reflexivity. Qed.

Lemma substring_prefix_app p s : substring 0 (String.length p) (p +:+ s) = p.
Proof.
  induction p as [|c p IH]; simpl; [by destruct s|].
  by rewrite IH.
Qed.

Lemma takeWhile_split p s : exists t, s = takeWhile p s +:+ t.
Proof.
  induction s as [|c r [t IH]]; simpl.
  - by exists "".
  - destruct (p c).
    + exists t. by rewrite app_String, <- IH.
    + by exists (String c r).
Qed.

Lemma nameAtHead_split s : exists t, s = nameAtHead s +:+ t.
Proof.
  destruct s as [|c r]; simpl; [by exists ""|].
  destruct (identStart c).
  - destruct (takeWhile_split identChar r) as [t Ht]. exists t.
    by rewrite app_String, <- Ht.
  - by exists (String c r).
Qed.

(** The inner loop past the first byte of a name. *)
Lemma nameEnd_rest fuel cmd i j :
  i + 1 < j -> String.length cmd - j <= fuel ->
  nameEnd fuel cmd i j = j + String.length (takeWhile identChar (dropBytes j cmd)).
Proof.
  revert j. induction fuel as [|fuel IH]; intros j Hj Hfuel.
  - simpl. pose proof (length_dropBytes j cmd) as Hl.
    destruct (dropBytes j cmd); simpl in *; lia.
  - simpl. rewrite get_dropBytes.
    pose proof (dropBytes_S j cmd) as HS.
    pose proof (length_dropBytes j cmd) as Hl.
    destruct (dropBytes j cmd) as [|c r]; simpl in Hl |- *; [lia|].
    replace (j =? i + 1)%nat with false by (symmetry; apply Nat.eqb_neq; lia).
    rewrite isVarChar_rest. destruct (identChar c); [|simpl; lia].
    rewrite IH by lia. replace (j + 1) with (S j) by lia. rewrite HS. simpl. lia.
Qed.

Lemma nameEnd_spec fuel cmd i :
  String.length cmd - (i + 1) <= fuel ->
  nameEnd fuel cmd i (i + 1)
  = i + 1 + String.length (nameAtHead (dropBytes (i + 1) cmd)).
Proof.
  intros Hfuel. destruct fuel as [|fuel].
  - simpl. pose proof (length_dropBytes (i + 1) cmd) as Hl.
    destruct (dropBytes (i + 1) cmd); simpl in *; lia.
  - simpl. rewrite get_dropBytes.
    pose proof (dropBytes_S (i + 1) cmd) as HS.
    pose proof (length_dropBytes (i + 1) cmd) as Hl.
    destruct (dropBytes (i + 1) cmd) as [|c r]; simpl in Hl |- *; [lia|].
    rewrite Nat.eqb_refl, isVarChar_first. destruct (identStart c); [|simpl; lia].
    rewrite nameEnd_rest by lia.
    replace (i + 1 + 1) with (S (i + 1)) by lia. rewrite HS. simpl. lia.
Qed.

Lemma nameAtHead_identChar s k c :
  String.get k (nameAtHead s) = Some c -> identChar c = true.
Proof.
  destruct s as [|c0 r]; simpl; [done|].
  destruct (identStart c0) eqn:E0; [|by destruct k].
  destruct k as [|k]; simpl.
  - intros [= <-]. by apply identStart_identChar.
  - clear. revert k. induction r as [|c1 r IH]; intros k; simpl; [by destruct k|].
    destruct (identChar c1) eqn:E1; [|by destruct k].
    destruct k as [|k]; simpl; [by intros [= <-]|apply IH].
Qed.

Lemma get_app_l p t k :
  k < String.length p -> String.get k (p +:+ t) = String.get k p.
Proof.
  revert k. induction p as [|c p IH]; intros k Hk; simpl in *; [lia|].
  rewrite ?app_String. destruct k; [done|]. simpl. apply IH. lia.
Qed.

Lemma get_lt_is_Some k s : k < String.length s -> is_Some (String.get k s).
Proof.
  revert k. induction s as [|c s IH]; intros k Hk; simpl in *; [lia|].
  destruct k; [by eexists|]. apply IH. lia.
Qed.

Lemma dropBytes_add a b s : dropBytes (a + b) s = dropBytes b (dropBytes a s).
Proof.
  revert s. induction a as [|a IH]; intros s; simpl; [done|].
  destruct s; [by rewrite dropBytes_nil|]. apply IH.
Qed.

(** No token starts inside a name. *)
Lemma referenceAt_inside cmd i k :
  i + 1 <= k < i + 1 + String.length (nameAtHead (dropBytes (i + 1) cmd)) ->
  referenceAt cmd k = None.
Proof.
  intros Hk. unfold referenceAt.
  destruct (nameAtHead_split (dropBytes (i + 1) cmd)) as [t Ht].
  assert (String.get k cmd = String.get (k - (i + 1)) (nameAtHead (dropBytes (i + 1) cmd))) as Hget.
  { rewrite get_dropBytes. replace k with ((i + 1) + (k - (i + 1))) at 1 by lia.
    rewrite dropBytes_add, <- get_dropBytes. rewrite Ht at 1.
    apply get_app_l. lia. }
  destruct (get_lt_is_Some (k - (i + 1)) (nameAtHead (dropBytes (i + 1) cmd))) as [c Hc]; [lia|].
  rewrite Hget, Hc. pose proof (nameAtHead_identChar _ _ _ Hc) as Hid.
  apply identChar_not_dollar in Hid.
  rewrite bool_decide_eq_false_2; [done|]. congruence.
Qed.

Lemma length_app_string p t : String.length (p +:+ t) = String.length p + String.length t.
Proof.
  induction p as [|c p IH]; [done|]. rewrite app_String. simpl. by rewrite IH.
Qed.

Lemma nameAtHead_length_le s : String.length (nameAtHead s) <= String.length s.
Proof.
  destruct (nameAtHead_split s) as [t Ht]. rewrite Ht at 2.
  rewrite length_app_string. lia.
Qed.

Lemma substring_name cmd i :
  substring (i + 1) (String.length (nameAtHead (dropBytes (i + 1) cmd))) cmd
  = nameAtHead (dropBytes (i + 1) cmd).
Proof.
  rewrite substring_dropBytes.
  destruct (nameAtHead_split (dropBytes (i + 1) cmd)) as [t Ht].
  rewrite Ht at 2. apply substring_prefix_app.
Qed.

Lemma referenceAt_not_dollar cmd i :
  String.get i cmd ≠ Some "$"%char -> referenceAt cmd i = None.
Proof. intros Hne. unfold referenceAt. by rewrite bool_decide_eq_false_2. Qed.

Lemma referenceAt_at_end cmd i :
  String.length cmd <= i + 1 -> referenceAt cmd i = None.
Proof.
  intros Hi. unfold referenceAt.
  pose proof (length_dropBytes (i + 1) cmd) as Hl.
  destruct (dropBytes (i + 1) cmd); simpl in Hl |- *; [|lia].
  by destruct (_ && _).
Qed.

Lemma referenceAt_escaped cmd i :
  0 < i -> String.get (i - 1) cmd = Some "092"%char -> referenceAt cmd i = None.
Proof.
  intros Hi Hesc. unfold referenceAt.
  replace (0 <? i)%nat with true by (symmetry; apply Nat.ltb_lt; lia).
  rewrite (bool_decide_eq_true_2 _ Hesc). by rewrite andb_false_r.
Qed.

Lemma omap_referenceAt_inside cmd i n :
  n <= String.length (nameAtHead (dropBytes (i + 1) cmd)) ->
  omap (referenceAt cmd) (seq (i + 1) n) = [].
Proof.
  intros Hn. assert (forall k, k ∈ seq (i + 1) n -> referenceAt cmd k = None) as Hall.
  { intros k Hk%elem_of_seq. apply (referenceAt_inside cmd i). lia. }
  induction (seq (i + 1) n) as [|k l IH]; [done|].
  simpl. rewrite Hall by left. apply IH. intros k' Hk'. apply Hall. by right.
Qed.

Lemma scanFrom_references fuel cmd scope i vars seen :
  String.length cmd - i <= fuel ->
  scanFrom fuel cmd scope i vars seen
  = fst (foldl (accumulate scope) (vars, seen)
           (omap (referenceAt cmd) (seq i (String.length cmd - i)))).
Proof.
  revert i vars seen. induction fuel as [|fuel IH]; intros i vars seen Hfuel.
  { simpl. by replace (String.length cmd - i) with 0 by lia. }
  cbn [scanFrom].
  destruct (Nat.ltb_spec i (String.length cmd)) as [Hi|Hi]; simpl negb; cbv iota;
    [|by replace (String.length cmd - i) with 0 by lia].
  replace (String.length cmd - i) with (S (String.length cmd - (i + 1))) by lia.
  cbn [seq omap list_omap]. replace (S i) with (i + 1) by lia.
  case_bool_decide as Hd; simpl negb; cbn [orb].
  2:{ rewrite (referenceAt_not_dollar _ _ Hd). apply IH. lia. }
  destruct (Nat.leb_spec (String.length cmd) (i + 1)) as [He|He].
  { rewrite (referenceAt_at_end _ _ He). apply IH. lia. }
  destruct (decide (0 < i /\ String.get (i - 1) cmd = Some "092"%char)) as [[H0 Hesc]|Hunesc].
  { rewrite (referenceAt_escaped _ _ H0 Hesc).
    replace (0 <? i)%nat with true by (symmetry; apply Nat.ltb_lt; lia).
    rewrite (bool_decide_eq_true_2 _ Hesc). cbn [andb]. apply IH. lia. }
  assert (((0 <? i)%nat && bool_decide (String.get (i - 1) cmd = Some "092"%char))%bool
          = false) as Hfalse.
  { destruct (Nat.ltb_spec 0 i); [|done]. rewrite bool_decide_eq_false_2; [done|].
    intros ?. apply Hunesc. done. }
  rewrite Hfalse. cbv zeta. rewrite nameEnd_spec by lia.
  assert (referenceAt cmd i
          = if bool_decide (nameAtHead (dropBytes (i + 1) cmd) = "") then None
            else Some (nameAtHead (dropBytes (i + 1) cmd))) as ->.
  { unfold referenceAt. by rewrite (bool_decide_eq_true_2 _ Hd), Hfalse. }
  pose proof (substring_name cmd i) as Hsub.
  pose proof (nameAtHead_length_le (dropBytes (i + 1) cmd)) as Hle.
  rewrite length_dropBytes in Hle.
  pose proof (omap_referenceAt_inside cmd i _ (Nat.le_refl _)) as Hin.
  set (name := nameAtHead (dropBytes (i + 1) cmd)) in *. clearbody name.
  replace (i + 1 + String.length name - 1 + 1) with (i + 1 + String.length name) by lia.
  replace (i + 1 + String.length name - (i + 1)) with (String.length name) by lia.
  rewrite Hsub.
  assert (omap (referenceAt cmd) (seq (i + 1) (String.length cmd - (i + 1)))
          = omap (referenceAt cmd)
              (seq (i + 1 + String.length name)
                   (String.length cmd - (i + 1 + String.length name)))) as ->.
  { replace (String.length cmd - (i + 1))
      with (String.length name + (String.length cmd - (i + 1 + String.length name))) by lia.
    rewrite seq_app, omap_app, Hin. done. }
  destruct (decide (name = "")) as [Hname|Hname].
  - rewrite (bool_decide_eq_true_2 _ Hname). subst name. simpl String.length.
    replace (i + 1 <? i + 1 + 0)%nat with false by (symmetry; apply Nat.ltb_ge; lia).
    apply IH. lia.
  - rewrite (bool_decide_eq_false_2 _ Hname).
    assert (0 < String.length name) by (destruct name; [done|simpl; lia]).
    replace (i + 1 <? i + 1 + String.length name)%nat with true
      by (symmetry; apply Nat.ltb_lt; lia).
    cbn [foldl]. unfold accumulate at 2. cbn [fst snd].
    destruct (negb (bool_decide (name ∈ seen)) && unbound scope name)%bool;
      apply IH; lia.
Qed.

Lemma unbound_spec scope name : unbound scope name = true <-> ¬ boundNonEmpty scope name.
Proof.
  unfold unbound, boundNonEmpty. destruct scope as [m|]; [|naive_solver].
  rewrite bool_decide_eq_true, lookup_total_alt.
  destruct (m !! name) as [v|] eqn:E; simpl.
  - split.
    + intros -> (m' & v' & [= <-] & Hv' & Hne). congruence.
    + intros Hn. destruct (decide (v = "")) as [|Hv]; [done|]. destruct Hn. eauto.
  - split; [|done]. intros _ (m' & v' & [= <-] & Hv' & Hne). congruence.
Qed.

Lemma distinct_elem_of l x : x ∈ distinct l <-> x ∈ l.
Proof.
  induction l as [|y l IH]; [done|]. simpl.
  rewrite !elem_of_cons, list_elem_of_filter, IH.
  destruct (decide (x = y)); naive_solver.
Qed.

Lemma distinct_NoDup l : NoDup (distinct l).
Proof.
  induction l as [|y l IH]; simpl; [constructor|].
  constructor; [|by apply NoDup_filter].
  rewrite list_elem_of_filter. naive_solver.
Qed.

Lemma filter_distinct (P : string -> Prop) `{!forall x, Decision (P x)} l :
  filter P (distinct l) = distinct (filter P l).
Proof.
  induction l as [|y l IH]; [done|]. simpl.
  rewrite !filter_cons. destruct (decide (P y)) as [Hy|Hy]; simpl.
  - f_equal. rewrite <- IH. rewrite !list_filter_filter.
    apply list_filter_iff. naive_solver.
  - rewrite <- IH, list_filter_filter. apply list_filter_iff.
    intros x. split; [naive_solver|]. intros Hx. split; first [done|congruence].
Qed.

Lemma accumulate_distinct scope l vars seen :
  fst (foldl (accumulate scope) (vars, seen) l)
  = vars ++ distinct (filter (fun n => (n ∉ seen) /\ ¬ boundNonEmpty scope n) l).
Proof.
  revert vars seen. induction l as [|x l IH]; intros vars seen.
  { simpl. by rewrite app_nil_r. }
  cbn [foldl]. unfold accumulate at 2. cbn [fst snd].
  rewrite filter_cons.
  destruct (decide (x ∈ seen)) as [Hx|Hx].
  - rewrite (bool_decide_eq_true_2 _ Hx). cbn [negb andb].
    rewrite decide_False by naive_solver. apply IH.
  - rewrite (bool_decide_eq_false_2 _ Hx). cbn [negb andb].
    destruct (unbound scope x) eqn:Hu.
    + apply unbound_spec in Hu. rewrite decide_True by done.
      rewrite IH, <- app_assoc. simpl. do 2 f_equal.
      rewrite filter_distinct, list_filter_filter.
      f_equal. apply list_filter_iff. intros y. set_solver.
    + assert (¬ ¬ boundNonEmpty scope x) as Hb.
      { intros Hn. apply unbound_spec in Hn. congruence. }
      rewrite decide_False by naive_solver. apply IH.
Qed.

Lemma findCommandVars_scanner cmd scope :
  findCommandVars cmd scope = scanner cmd scope.
Proof.
  unfold findCommandVars, scanner, references.
  rewrite scanFrom_references by lia. rewrite Nat.sub_0_r, accumulate_distinct.
  simpl. f_equal. apply list_filter_iff. intros x. set_solver.
Qed.

Example scan_escaped :
  findCommandVars "deploy $env to \$x $env-$region$1a$_b" None = ["env"; "region"; "_b"].
Proof. vm_compute. reflexivity. Qed.

(** C7: for any command template and optional known scope, the pattern
    scanner returns the distinct names of the unescaped [$name] tokens in
    the order of their first occurrence; a name starts with a letter or
    underscore and continues with letters, digits or underscores, a dollar
    immediately preceded by a backslash is no reference, and the names that
    the known scope binds to a non-empty value are left out.  The returned
    names are pairwise distinct, and the template
    "deploy $env to $env-$region" with no known scope yields env, region. *)
Theorem findCommandVars_spec (cmd : string) (scope : option (gmap string string)) :
  findCommandVars cmd scope
  = distinct (filter (fun name => ¬ boundNonEmpty scope name) (references cmd))
  /\ NoDup (findCommandVars cmd scope)
  /\ (forall name, name ∈ findCommandVars cmd scope
        <-> name ∈ references cmd /\ ¬ boundNonEmpty scope name)
  /\ findCommandVars "deploy $env to $env-$region" None = ["env"; "region"].
Proof.
  rewrite findCommandVars_scanner. unfold scanner. split_and!.
  - done.
  - apply distinct_NoDup.
  - intros name. by rewrite distinct_elem_of, list_elem_of_filter, (comm and).
  - vm_compute. reflexivity.
Qed.

(** ** The definition collector *)

Section Traversal.
Variable index : CheatIndex.

Lemma seen_foldl_addImported st vars : seen (foldl addImported st vars) = seen st.
Proof. revert st. induction vars as [|v vars IH]; intros st; simpl; [done|]. by rewrite IH. Qed.

Lemma visitLog_foldl_addImported st vars :
  visitLog (foldl addImported st vars) = visitLog st.
Proof. revert st. induction vars as [|v vars IH]; intros st; simpl; [done|]. by rewrite IH. Qed.

(** Whatever holds between the states before and after marking a fresh
    name and before and after offering a definition, and is reflexive and
    transitive, holds between the states before and after a traversal. *)
Lemma collectFromImports_rel (R : collectState -> collectState -> Prop) :
  (forall st, R st st) ->
  (forall st1 st2 st3, R st1 st2 -> R st2 st3 -> R st1 st3) ->
  (forall x st, x ∉ seen st -> R st (markSeen x st)) ->
  (forall st v, R st (addImported st v)) ->
  forall depth imports st st',
    collectFromImports depth index imports st = Some st' -> R st st'.
Proof.
  intros Hrefl Htrans Hmark Hadd.
  assert (forall vars st, R st (foldl addImported st vars)) as Hvars.
  { induction vars as [|v vars IH]; intros st; simpl; [apply Hrefl|].
    eapply Htrans; [apply Hadd|apply IH]. }
  induction depth as [|depth IHd]; [done|].
  induction imports as [|x rest IHi]; intros st st' Hrun; cbn in Hrun.
  { injection Hrun as <-. apply Hrefl. }
  case_bool_decide as Hx.
  { by apply IHi. }
  destruct (Modules index !! x) as [module|].
  - destruct (collectFromImports depth index (ModImports module) (markSeen x st))
      as [st1|] eqn:Hnested; [|done].
    apply IHd in Hnested. apply IHi in Hrun.
    eapply Htrans; [by apply Hmark|]. eapply Htrans; [apply Hnested|].
    eapply Htrans; [apply Hvars|apply Hrun].
  - apply IHi in Hrun. eapply Htrans; [by apply Hmark|apply Hrun].
Qed.

Lemma collectFromImports_seen depth imports st st' :
  collectFromImports depth index imports st = Some st' -> seen st ⊆ seen st'.
Proof.
  apply (collectFromImports_rel (fun a b => seen a ⊆ seen b)).
  - done.
  - intros ??? ??. by etrans.
  - intros x st0 _. simpl. set_solver.
  - done.
Qed.

Lemma collectFromImports_visitedOnce depth imports st st' :
  collectFromImports depth index imports st = Some st' ->
  visitedOnce st -> visitedOnce st'.
Proof.
  apply (collectFromImports_rel (fun a b => visitedOnce a -> visitedOnce b));
    [tauto|tauto| |by intros ? ? [? ?]].
  intros x st0 Hx [Hnd Hin]. split; simpl.
  - apply NoDup_app. split_and!; [done| |apply NoDup_singleton].
    intros y Hy ->%list_elem_of_singleton. by apply Hx, Hin.
  - intros y [Hy| ->%list_elem_of_singleton]%elem_of_app; set_solver.
Qed.

Lemma unseen_mono st st' : seen st ⊆ seen st' -> unseen index st' <= unseen index st.
Proof. intros Hsub. unfold unseen. apply subseteq_size. set_solver. Qed.

Lemma unseen_markSeen x st module :
  x ∉ seen st -> Modules index !! x = Some module -> unseen index (markSeen x st) < unseen index st.
Proof.
  intros Hx Hm. unfold unseen. apply subset_size. unfold markSeen; simpl.
  assert (x ∈ dom (Modules index)) by (apply elem_of_dom; eauto).
  set_solver.
Qed.

(** A traversal comes back when it may nest deeper than there are unmarked
    definition-sets. *)
Lemma collectFromImports_returns depth imports st :
  unseen index st < depth -> is_Some (collectFromImports depth index imports st).
Proof.
  revert imports st. induction depth as [|depth IHd]; [lia|].
  induction imports as [|x rest IHi]; intros st Hdepth; cbn; [by eexists|].
  case_bool_decide as Hx; [by apply IHi|].
  destruct (Modules index !! x) as [module|] eqn:Hm.
  - pose proof (unseen_markSeen x st module Hx Hm) as Hlt.
    destruct (IHd (ModImports module) (markSeen x st)) as [st1 Hst1]; [lia|].
    rewrite Hst1. apply IHi.
    pose proof (collectFromImports_seen _ _ _ _ Hst1) as Hsub.
    eapply Nat.le_lt_trans; [apply unseen_mono|apply Hdepth].
    rewrite seen_foldl_addImported. etrans; [|apply Hsub]. simpl. set_solver.
  - apply IHi. eapply Nat.le_lt_trans; [apply unseen_mono|apply Hdepth].
    simpl. set_solver.
Qed.

(** Allowing deeper nesting does not change what a traversal returns. *)
Lemma collectFromImports_deeper depth depth' imports st st' :
  collectFromImports depth index imports st = Some st' -> depth <= depth' ->
  collectFromImports depth' index imports st = Some st'.
Proof.
  revert depth' imports st st'. induction depth as [|depth IHd]; [done|].
  intros [|depth'] imports st st' Hrun Hle; [lia|].
  revert st Hrun. induction imports as [|x rest IHi]; intros st Hrun; cbn in Hrun |- *; [done|].
  case_bool_decide as Hx; [by apply IHi|].
  destruct (Modules index !! x) as [module|]; [|by apply IHi].
  destruct (collectFromImports depth index (ModImports module) (markSeen x st))
    as [st1|] eqn:Hnested; [|done].
  rewrite (IHd depth' _ _ _ Hnested) by lia. by apply IHi.
Qed.

Lemma unseen_emptyState : unseen index emptyState < importDepth index.
Proof.
  unfold unseen, importDepth. simpl.
  rewrite difference_empty_L, size_dom. lia.
Qed.

End Traversal.

Lemma named_app name l1 l2 : named name (l1 ++ l2) = named name l1 ++ named name l2.
Proof. apply filter_app. Qed.

Lemma firstOffered_addImported st v : firstOffered st -> firstOffered (addImported st v).
Proof.
  intros Hst name. unfold addImported; simpl. rewrite named_app.
  specialize (Hst name) as Hname. pose proof (Hst (Name v)) as Hv.
  unfold named at 2. rewrite filter_cons, filter_nil.
  destruct (decide (Name v = name)) as [<-|Hne].
  - rewrite Hv. destruct (named (Name v) (offerLog st)) as [|d l] eqn:E; simpl.
    + by rewrite lookup_insert_eq.
    + by rewrite Hv.
  - rewrite app_nil_r, <- Hname.
    destruct (varDefs st !! Name v); [done|]. by rewrite lookup_insert_ne.
Qed.

Lemma collectFromImports_firstOffered index depth imports st st' :
  collectFromImports depth index imports st = Some st' ->
  firstOffered st -> firstOffered st'.
Proof.
  apply (collectFromImports_rel index (fun a b => firstOffered a -> firstOffered b));
    [tauto|tauto|by intros ? ? ? ?|].
  intros st0 v. apply firstOffered_addImported.
Qed.


Lemma addLocals_lookup m locals name :
  addLocals m locals !! name
  = match last (named name locals) with Some d => Some d | None => m !! name end.
Proof.
  unfold addLocals. revert m. induction locals as [|v locals IH] using rev_ind; intros m.
  { done. }
  rewrite foldl_app, named_app. simpl. unfold named at 2.
  rewrite filter_cons, filter_nil.
  destruct (decide (Name v = name)) as [<-|Hne].
  - by rewrite lookup_insert_eq, last_snoc.
  - rewrite lookup_insert_ne, app_nil_r by done. apply IH.
Qed.

Lemma orderedList_fmap m usedVars :
  orderedList m usedVars
  = (fun name => mkVarState (default (synthetic name) (m !! name)) "" false "")
      <$> usedVars.
Proof.
  unfold orderedList.
  assert (forall acc,
    foldl (fun vars varName =>
             match m !! varName with
             | Some d => vars ++ [mkVarState d "" false ""]
             | None => vars ++ [mkVarState (mkVarDef varName "" "") "" false ""]
             end) acc usedVars
    = acc ++ ((fun name => mkVarState (default (synthetic name) (m !! name)) "" false "")
                <$> usedVars)) as Hgen.
  { induction usedVars as [|x l IH]; intros acc; simpl; [by rewrite app_nil_r|].
    rewrite IH. destruct (m !! x); simpl; by rewrite <- app_assoc. }
  apply Hgen.
Qed.

Lemma chosen_Name locals imported name : Name (chosen locals imported name) = name.
Proof.
  unfold chosen, named.
  destruct (last (filter _ locals)) as [d|] eqn:El.
  { apply last_Some_elem_of, list_elem_of_filter in El. tauto. }
  destruct (head (filter _ imported)) as [d|] eqn:Eh; [|done].
  apply head_Some_elem_of, list_elem_of_filter in Eh. tauto.
Qed.

Lemma collectVariables_chosen cheat index :
  exists st,
    collectFromImports (importDepth index) index (Imports cheat) emptyState = Some st
    /\ firstOffered st
    /\ collectVariables cheat index
       = Some ((fun name =>
                  mkVarState (chosen (Vars cheat) (offerLog st) name) "" false "")
               <$> findCommandVars (Command cheat) None).
Proof.
  destruct (collectFromImports_returns index (importDepth index) (Imports cheat) emptyState)
    as [st Hst]; [apply unseen_emptyState|].
  assert (firstOffered st) as Hfirst.
  { apply (collectFromImports_firstOffered _ _ _ _ _ Hst). intros name. done. }
  exists st. split_and!; [done|done|].
  unfold collectVariables. rewrite Hst, orderedList_fmap. f_equal.
  apply list_fmap_ext. intros _ name _. f_equal.
  rewrite addLocals_lookup, Hfirst. unfold chosen.
  destruct (last (named name (Vars cheat))); [done|].
  by destruct (head (named name (offerLog st))).
Qed.

Lemma collectVariables_shape cheat index vars :
  collectVariables cheat index = Some vars ->
  (fun vs => Name (def vs)) <$> vars = findCommandVars (Command cheat) None
  /\ Forall (fun vs => resolved vs = false) vars.
Proof.
  destruct (collectVariables_chosen cheat index) as (st & _ & _ & ->).
  intros [= <-]. split.
  - rewrite <- list_fmap_compose. rewrite <- (list_fmap_id (findCommandVars _ _)) at 2.
    apply list_fmap_ext. intros _ name _. simpl. apply chosen_Name.
  - apply Forall_fmap, Forall_true. done.
Qed.

(** C9: variable collection terminates on every input, cyclic import graphs
    included: the traversal of the imports comes back within the nesting
    that [collectVariables] allows it (and with the same state for any
    deeper nesting), it marked every import name at most once, and
    [collectVariables] returns a list. *)
Theorem collectVariables_terminates (cheat : Cheat) (index : CheatIndex) :
  exists st vars,
    (forall depth, importDepth index <= depth ->
       collectFromImports depth index (Imports cheat) emptyState = Some st)
    /\ NoDup (visitLog st)
    /\ collectVariables cheat index = Some vars.
Proof.
  destruct (collectFromImports_returns index (importDepth index) (Imports cheat) emptyState)
    as [st Hst]; [apply unseen_emptyState|].
  exists st. eexists. split_and!.
  - intros depth Hdepth. by apply (collectFromImports_deeper index _ _ _ _ _ Hst).
  - apply (collectFromImports_visitedOnce index _ _ _ _ Hst).
    split; [constructor|]. intros x Hx. by apply elem_of_nil in Hx.
  - unfold collectVariables. by rewrite Hst.
Qed.


(** ** The value source resolver and the selector *)

Lemma splitLines_trimmedLines s : splitLines s = trimmedLines s.
Proof.
  unfold splitLines, trimmedLines.
  assert (forall l acc,
    foldl (fun lines line =>
             let trimmed := GoStrings.TrimSpace line in
             if bool_decide (trimmed ≠ "") then lines ++ [trimmed] else lines) acc l
    = acc ++ filter (fun line => line ≠ "") (GoStrings.TrimSpace <$> l)) as Hgen.
  { induction l as [|x l IH]; intros acc; simpl; [by rewrite app_nil_r|].
    rewrite IH, filter_cons.
    destruct (decide (GoStrings.TrimSpace x ≠ "")) as [Hx|Hx].
    - rewrite (bool_decide_eq_true_2 _ Hx). rewrite <- app_assoc. reflexivity.
    - by rewrite (bool_decide_eq_false_2 _ Hx). }
  apply Hgen.
Qed.

Lemma prefix_spec sub s : String.prefix sub s = true <-> exists post, s = sub +:+ post.
Proof.
  revert s. induction sub as [|c sub IH]; intros s.
  { split; [intros _; exists s; reflexivity|by destruct s]. }
  destruct s as [|c' s]; simpl.
  { split; [done|]. intros [post Hpost]. by rewrite app_String in Hpost. }
  destruct (ascii_dec c c') as [<-|Hne].
  - rewrite IH. split; intros [post Hpost]; exists post.
    + by rewrite app_String, <- Hpost.
    + rewrite app_String in Hpost. by injection Hpost.
  - split; [done|]. intros [post Hpost]. rewrite app_String in Hpost. congruence.
Qed.








Section Selector.
Context {T : Type} `{TextInput T}.







End Selector.

(** ** The resolution session *)

Section Session.
Context {T : Type} `{TextInput T} (env : Env).

Lemma resolveVar_component v scope header prefill events :
  resolveVar env v scope header prefill events
  = runComponent (componentFor env v scope) (Name v) header (extractCustomHeader (Args v))
      prefill events.
Proof.
  unfold resolveVar, componentFor. cbv zeta. case_bool_decide; [done|].
  destruct (RunShell env _) as [output|e]; [|done].
  destruct (splitLines output) as [|l1 [|l2 lines]]; done.
Qed.

Lemma runProgram_shorter {M : Type} (update : M -> Msg -> M * bool) m events r rest :
  runProgram update m events = Some (r, rest) -> length rest < length events.
Proof.
  revert m. induction events as [|[msg|err] events IH]; intros m; simpl; [done| |].
  - destruct (update m msg) as [m' [|]].
    + intros [= <- <-]. lia.
    + intros Hrun%IH. lia.
  - intros [= <- <-]. lia.
Qed.

Lemma PromptWithTUI_tagged name header customHeader prefill events res rest :
  PromptWithTUI name header customHeader prefill events = Some (res, rest) ->
  tagged res /\ length rest < length events.
Proof.
  unfold PromptWithTUI, tagged.
  destruct (runProgram _ _ _) as [[[final|err] rest']|] eqn:Hrun; [| |done].
  - apply runProgram_shorter in Hrun. case_bool_decide as Hexit.
    + intros [= <- <-]. auto.
    + destruct (in_cancelled final); intros [= <- <-]; eauto 10.
  - apply runProgram_shorter in Hrun. intros [= <- <-]. eauto.
Qed.

Lemma SelectWithTUI_tagged name options header customHeader prefill events res rest :
  SelectWithTUI name options header customHeader prefill events = Some (res, rest) ->
  tagged res /\ length rest < length events.
Proof.
  unfold SelectWithTUI, tagged.
  destruct (runProgram _ _ _) as [[[final|err] rest']|] eqn:Hrun; [| |done].
  - apply runProgram_shorter in Hrun. case_bool_decide as Hexit.
    + intros [= <- <-]. auto.
    + destruct (cancelled final); intros [= <- <-]; eauto 10.
  - apply runProgram_shorter in Hrun. intros [= <- <-]. eauto.
Qed.

Lemma resolveVar_tagged v scope header prefill events res rest :
  resolveVar env v scope header prefill events = Some (res, rest) ->
  tagged res /\ length rest < length events.
Proof.
  rewrite resolveVar_component. destruct (componentFor env v scope); simpl.
  - apply PromptWithTUI_tagged.
  - apply SelectWithTUI_tagged.
Qed.

Lemma resolveVar_goBack v scope header prefill events val err rest :
  resolveVar env v scope header prefill events = Some ((val, true, err), rest) ->
  val = "" /\ err = None.
Proof.
  intros [Htag _]%resolveVar_tagged.
  destruct Htag as [[e [=]]|[[=]|[[= -> ->]|(v' & _ & [=])]]]. done.
Qed.




Lemma loopBody_goBack cheat vars i vs val err events events' :
  (0 <= i)%Z -> vars !! Z.to_nat i = Some vs -> resolved vs = false ->
  resolveVar env (def vs) (buildScope vars)
    (buildProgressHeader env (Command cheat) vars i) (prefill vs) events
  = Some ((val, true, err), events') ->
  loopBody env cheat vars i events
  = Continue (if (0 <=? i - 1)%Z then alter setPending (Z.to_nat (i - 1)) vars else vars)
             (i - 1) events'.
Proof.
  intros Hi Hvs Hpending Hres. destruct (resolveVar_goBack _ _ _ _ _ _ _ _ Hres) as [-> ->].
  unfold loopBody. replace (i <? 0)%Z with false by (symmetry; apply Z.ltb_ge; lia).
  rewrite Hvs, Hpending. cbv zeta. rewrite Hres.
  rewrite (bool_decide_eq_false_2 ("" = "__EXIT__")) by discriminate.
  by destruct (0 <=? i - 1)%Z.
Qed.

(** C2: when the user signals go-back at step [i], the cursor moves back by
    one; if the new cursor is not negative, the step before [i], and this
    step alone, is marked pending with its value cleared; and when the
    cursor reaches -1 the session returns the go-back-to-caller signal and
    no error. *)
Theorem goBack_moves_back (cheat : Cheat) (vars : list varState) (i : Z)
    (vs : varState) (val : string) (err : option string) (events events' : list event) :
  (0 <= i)%Z -> vars !! Z.to_nat i = Some vs -> resolved vs = false ->
  resolveVar env (def vs) (buildScope vars)
    (buildProgressHeader env (Command cheat) vars i) (prefill vs) events
  = Some ((val, true, err), events') ->
  exists vars',
    loopBody env cheat vars i events = Continue vars' (i - 1) events'
    /\ (forall rounds, resolveLoop env (S rounds) cheat vars i events
                       = resolveLoop env rounds cheat vars' (i - 1) events')
    /\ length vars' = length vars
    /\ (forall j, Z.of_nat j ≠ (i - 1)%Z -> vars' !! j = vars !! j)
    /\ ((0 <= i - 1)%Z ->
        exists prev, vars !! Z.to_nat (i - 1) = Some prev
          /\ vars' !! Z.to_nat (i - 1) = Some (mkVarState (def prev) "" false (prefill prev)))
    /\ ((i - 1 = -1)%Z ->
        vars' = vars
        /\ forall rounds, resolveLoop env (S (S rounds)) cheat vars i events
                          = Some (Returned true None cheat)).
Proof.
  intros Hi Hvs Hpending Hres.
  pose proof (loopBody_goBack cheat vars i vs val err events events' Hi Hvs Hpending Hres)
    as Hbody.
  assert (i < len vars)%Z as Hlen.
  { apply lookup_lt_Some in Hvs. unfold len. lia. }
  assert (forall vars', loopBody env cheat vars i events = Continue vars' (i - 1) events' ->
            forall rounds, resolveLoop env (S rounds) cheat vars i events
                           = resolveLoop env rounds cheat vars' (i - 1) events') as Hloop.
  { intros vars' Hb rounds. cbn [resolveLoop].
    replace (i <? len vars)%Z with true by (symmetry; apply Z.ltb_lt; lia).
    by rewrite Hb. }
  eexists. split; [exact Hbody|]. split; [by apply Hloop|].
  destruct (Z.leb_spec 0 (i - 1)) as [Hprev|Hprev].
  - split_and!.
    + apply length_alter.
    + intros j Hj. apply list_lookup_alter_ne. lia.
    + intros _. destruct (lookup_lt_is_Some_2 vars (Z.to_nat (i - 1))) as [prev Hp].
      { apply lookup_lt_Some in Hvs. lia. }
      exists prev. split; [done|]. by rewrite list_lookup_alter_eq, Hp.
    + lia.
  - split_and!; [done|done|lia|].
    intros Hend. split; [done|]. intros rounds.
    rewrite (Hloop _ Hbody). rewrite Hend. cbn [resolveLoop].
    replace (-1 <? len vars)%Z with true by (symmetry; apply Z.ltb_lt; unfold len; lia).
    done.
Qed.

(** C3 (amended): in a session where the variables before the current one
    are resolved or not and the user is prompted for the current one, a
    go-back marks the immediate predecessor pending again, its value
    cleared, and moves the cursor onto it; the current variable stays
    pending and every variable before the predecessor and after the
    current one keeps its state.  With variable 0 resolved and the user
    prompted for variable 1, variable 0 is pending after the go-back. *)
Theorem goBack_invalidates_predecessor (cheat : Cheat) (before after : list varState)
    (prev cur : varState) (val : string) (err : option string)
    (events events' : list event) :
  let vars := before ++ prev :: cur :: after in
  let i := (len before + 1)%Z in
  resolved cur = false ->
  resolveVar env (def cur) (buildScope vars)
    (buildProgressHeader env (Command cheat) vars i) (prefill cur) events
  = Some ((val, true, err), events') ->
  loopBody env cheat vars i events
  = Continue (before ++ mkVarState (def prev) "" false (prefill prev) :: cur :: after)
             (len before) events'.
Proof.
  intros vars i Hpending Hres.
  assert (vars !! Z.to_nat i = Some cur) as Hcur.
  { unfold vars, i, len. replace (Z.to_nat (Z.of_nat (length before) + 1))
      with (length before + 1) by lia.
    rewrite lookup_app_r by lia. by replace (length before + 1 - length before) with 1 by lia. }
  rewrite (loopBody_goBack cheat vars i cur val err events events') by (done || unfold i, len; lia).
  unfold i, len. replace (0 <=? Z.of_nat (length before) + 1 - 1)%Z with true
    by (symmetry; apply Z.leb_le; lia).
  replace (Z.of_nat (length before) + 1 - 1)%Z with (Z.of_nat (length before)) by lia.
  rewrite Nat2Z.id. f_equal. unfold vars.
  rewrite alter_app_r_alt by lia. rewrite Nat.sub_diag. done.
Qed.

Lemma runProgram_quiet {M : Type} (update : M -> Msg -> M * bool) m quiet final rest :
  (forall m' msg, msg ∈ quiet -> snd (update m' msg) = false) ->
  snd (update (afterMessages update m quiet) final) = true ->
  runProgram update m ((Deliver <$> quiet) ++ Deliver final :: rest)
  = Some (inl (fst (update (afterMessages update m quiet) final)), rest).
Proof.
  revert m. induction quiet as [|msg quiet IH]; intros m Hquiet Hfinal; simpl in *.
  - destruct (update m final) as [m' quit]. simpl in Hfinal. by subst.
  - pose proof (Hquiet m msg ltac:(left)) as Hmsg.
    destruct (update m msg) as [m' quit] eqn:E. simpl in Hmsg. subst quit.
    apply IH; [|done]. intros m'' msg' Hin. apply Hquiet. by right.
Qed.

Lemma in_handleKeyPress_quiet (m : varInputModel T) key :
  ¬ quits (KeyMsg key) -> in_handleKeyPress m key = (m, false).
Proof.
  intros Hq. unfold in_handleKeyPress, quits in *.
  repeat case_bool_decide; subst; tauto.
Qed.

Lemma in_Update_quiet (m : varInputModel T) msg :
  ¬ quits msg ->
  snd (in_Update m msg) = false
  /\ in_cancelled (fst (in_Update m msg)) = in_cancelled m
  /\ in_value (fst (in_Update m msg)) = in_value m.
Proof.
  intros Hq. unfold in_Update. destruct msg as [key|w h]; [|done].
  by rewrite in_handleKeyPress_quiet.
Qed.

Lemma in_afterMessages_quiet (m : varInputModel T) quiet :
  Forall (fun msg => ¬ quits msg) quiet ->
  in_cancelled (afterMessages in_Update m quiet) = in_cancelled m
  /\ in_value (afterMessages in_Update m quiet) = in_value m.
Proof.
  intros Hquiet. revert m. induction Hquiet as [|msg quiet Hmsg _ IH]; intros m; [done|].
  simpl. destruct (IH (fst (in_Update m msg))) as [-> ->].
  destruct (in_Update_quiet m msg Hmsg) as (_ & -> & ->). done.
Qed.

Lemma handleKeyPress_quiet (m : varSelectModel T) key :
  ¬ quits (KeyMsg key) ->
  snd (handleKeyPress m key) = false
  /\ cancelled (fst (handleKeyPress m key)) = cancelled m
  /\ selected (fst (handleKeyPress m key)) = selected m.
Proof.
  intros Hq. unfold handleKeyPress, quits in *.
  repeat case_bool_decide; subst; try tauto; simpl; try done.
  by destruct (_ <? _)%Z.
Qed.

Lemma Update_quiet (m : varSelectModel T) msg :
  ¬ quits msg ->
  snd (Update m msg) = false
  /\ cancelled (fst (Update m msg)) = cancelled m
  /\ selected (fst (Update m msg)) = selected m.
Proof.
  intros Hq. unfold Update. destruct msg as [key|w h].
  - destruct (handleKeyPress_quiet m key Hq) as (Hs & Hc & Hv).
    destruct (handleKeyPress m key) as [m' quit]. simpl in Hs, Hc, Hv. subst quit.
    rewrite <- Hc, <- Hv. unfold filterOptions. cbv zeta.
    by case_bool_decide.
  - simpl. unfold filterOptions. cbv zeta. by case_bool_decide.
Qed.

Lemma afterMessages_quiet (m : varSelectModel T) quiet :
  Forall (fun msg => ¬ quits msg) quiet ->
  cancelled (afterMessages Update m quiet) = cancelled m
  /\ selected (afterMessages Update m quiet) = selected m.
Proof.
  intros Hquiet. revert m. induction Hquiet as [|msg quiet Hmsg _ IH]; intros m; [done|].
  simpl. destruct (IH (fst (Update m msg))) as [-> ->].
  destruct (Update_quiet m msg Hmsg) as (_ & -> & ->). done.
Qed.

Lemma in_Update_quit (m : varInputModel T) key :
  quits (KeyMsg key) -> in_Update m (KeyMsg key) = (fst (in_handleKeyPress m key), true).
Proof. intros [[= ->]|[[= ->]|[= ->]]]; reflexivity. Qed.

Lemma Update_quit (m : varSelectModel T) key :
  quits (KeyMsg key) -> Update m (KeyMsg key) = (fst (handleKeyPress m key), true).
Proof. intros [[= ->]|[[= ->]|[= ->]]]; reflexivity. Qed.

Lemma runProgram_quiet_in (m : varInputModel T) quiet key rest :
  Forall (fun msg => ¬ quits msg) quiet ->
  quits (KeyMsg key) ->
  runProgram in_Update m ((Deliver <$> quiet) ++ Deliver (KeyMsg key) :: rest)
  = Some (inl (fst (in_handleKeyPress (afterMessages in_Update m quiet) key)), rest).
Proof.
  intros Hquiet Hkey. rewrite runProgram_quiet.
  - by rewrite in_Update_quit.
  - intros m' msg Hin. apply in_Update_quiet.
    by apply (proj1 (Forall_forall _ _) Hquiet).
  - by rewrite in_Update_quit.
Qed.

Lemma runProgram_quiet_select (m : varSelectModel T) quiet key rest :
  Forall (fun msg => ¬ quits msg) quiet ->
  quits (KeyMsg key) ->
  runProgram Update m ((Deliver <$> quiet) ++ Deliver (KeyMsg key) :: rest)
  = Some (inl (fst (handleKeyPress (afterMessages Update m quiet) key)), rest).
Proof.
  intros Hquiet Hkey. rewrite runProgram_quiet.
  - by rewrite Update_quit.
  - intros m' msg Hin. apply Update_quiet.
    by apply (proj1 (Forall_forall _ _) Hquiet).
  - by rewrite Update_quit.
Qed.

(** The enter key after messages that do not end the run: the component
    returns what the key submits, with the exit sentinel in place of a
    value when that is the sentinel. *)
Lemma runComponent_enter c name header customHeader prefill quiet rest :
  Forall (fun msg => ¬ quits msg) quiet ->
  runComponent c name header customHeader prefill
    ((Deliver <$> quiet) ++ Deliver (KeyMsg "enter") :: rest)
  = Some ((submittedValue c name header customHeader prefill quiet, false, None), rest).
Proof.
  intros Hquiet. assert (quits (KeyMsg "enter")) as Hkey by (unfold quits; auto).
  destruct c as [|candidates]; simpl.
  - unfold PromptWithTUI. rewrite runProgram_quiet_in by done.
    destruct (in_afterMessages_quiet
      (newVarInputModel name header customHeader prefill) quiet Hquiet) as [Hc _].
    set (m := afterMessages in_Update _ quiet) in *. simpl in Hc. simpl. rewrite Hc.
    case_bool_decide as Hexit; [by rewrite Hexit|done].
  - unfold SelectWithTUI. rewrite runProgram_quiet_select by done.
    destruct (afterMessages_quiet
      (newVarSelectModel name candidates header customHeader prefill) quiet Hquiet)
      as [Hc _].
    set (m := afterMessages Update _ quiet) in *. simpl in Hc.
    unfold handleKeyPress. simpl.
    destruct (cursor m <? len (filtered m))%Z; simpl; rewrite Hc;
      (case_bool_decide as Hexit; [by rewrite Hexit|done]).
Qed.

(** The escape key after messages that do not end the run is the go-back
    signal. *)
Lemma runComponent_escape c name header customHeader prefill quiet rest :
  Forall (fun msg => ¬ quits msg) quiet ->
  runComponent c name header customHeader prefill
    ((Deliver <$> quiet) ++ Deliver (KeyMsg "esc") :: rest)
  = Some (("", true, None), rest).
Proof.
  intros Hquiet. assert (quits (KeyMsg "esc")) as Hkey by (unfold quits; auto).
  destruct c as [|candidates]; simpl.
  - unfold PromptWithTUI. rewrite runProgram_quiet_in by done.
    destruct (in_afterMessages_quiet
      (newVarInputModel name header customHeader prefill) quiet Hquiet) as [_ Hv].
    set (m := afterMessages in_Update _ quiet) in *. simpl in Hv. simpl. by rewrite Hv.
  - unfold SelectWithTUI. rewrite runProgram_quiet_select by done.
    destruct (afterMessages_quiet
      (newVarSelectModel name candidates header customHeader prefill) quiet Hquiet)
      as [_ Hv].
    set (m := afterMessages Update _ quiet) in *. simpl in Hv. simpl. by rewrite Hv.
Qed.

(** The interrupt key after messages that do not end the run is the exit
    signal. *)
Lemma runComponent_interrupt c name header customHeader prefill quiet rest :
  Forall (fun msg => ¬ quits msg) quiet ->
  runComponent c name header customHeader prefill
    ((Deliver <$> quiet) ++ Deliver (KeyMsg "ctrl+c") :: rest)
  = Some (("__EXIT__", false, None), rest).
Proof.
  intros Hquiet. assert (quits (KeyMsg "ctrl+c")) as Hkey by (unfold quits; auto).
  destruct c as [|candidates]; simpl.
  - unfold PromptWithTUI. by rewrite runProgram_quiet_in by done.
  - unfold SelectWithTUI. by rewrite runProgram_quiet_select by done.
Qed.

(** An interrupt at any step ends the process, whatever the cursor. *)
Lemma interrupt_exits cheat vars i vs quiet rest :
  (0 <= i)%Z -> vars !! Z.to_nat i = Some vs -> resolved vs = false ->
  Forall (fun msg => ¬ quits msg) quiet ->
  loopBody env cheat vars i ((Deliver <$> quiet) ++ Deliver (KeyMsg "ctrl+c") :: rest)
  = Stop Exited.
Proof.
  intros Hi Hvs Hpending Hquiet. unfold loopBody.
  replace (i <? 0)%Z with false by (symmetry; apply Z.ltb_ge; lia).
  rewrite Hvs, Hpending. cbv zeta.
  by rewrite resolveVar_component, runComponent_interrupt.
Qed.

(** The escape key at a step is a go-back outcome of [resolveVar]. *)
Lemma escape_goes_back v scope header prefill quiet rest :
  Forall (fun msg => ¬ quits msg) quiet ->
  resolveVar env v scope header prefill
    ((Deliver <$> quiet) ++ Deliver (KeyMsg "esc") :: rest)
  = Some (("", true, None), rest).
Proof. intros Hquiet. by rewrite resolveVar_component, runComponent_escape. Qed.

(** C1 (amended): the components return their outcome as the triple
    (value, goBack, err) in which the text "__EXIT__" as value is the exit
    signal.  For every string other than "__EXIT__" that the user submits
    with the enter key, in the input prompt or in the selector, the session
    records it as the resolved value of the variable and moves on to the
    next one; the submitted text "__EXIT__" ends the process instead. *)
Theorem submitted_value_recorded (cheat : Cheat) (vars : list varState) (i : Z)
    (vs : varState) (quiet : list Msg) (rest : list event) :
  (0 <= i)%Z -> vars !! Z.to_nat i = Some vs -> resolved vs = false ->
  Forall (fun msg => ¬ quits msg) quiet ->
  let scope := buildScope vars in
  let header := buildProgressHeader env (Command cheat) vars i in
  let submitted :=
    submittedValue (componentFor env (def vs) scope) (Name (def vs)) header
      (extractCustomHeader (Args (def vs))) (prefill vs) quiet in
  let events := (Deliver <$> quiet) ++ Deliver (KeyMsg "enter") :: rest in
  (submitted ≠ "__EXIT__" ->
   loopBody env cheat vars i events
   = Continue (<[Z.to_nat i := mkVarState (def vs) submitted true (prefill vs)]> vars)
              (i + 1) rest)
  /\ (submitted = "__EXIT__" -> loopBody env cheat vars i events = Stop Exited).
Proof.
  intros Hi Hvs Hpending Hquiet scope header submitted events.
  assert (loopBody env cheat vars i events
          = if bool_decide (submitted = "__EXIT__") then Stop Exited
            else Continue (<[Z.to_nat i := setResolved submitted vs]> vars) (i + 1) rest)
    as Hbody.
  { unfold loopBody. replace (i <? 0)%Z with false by (symmetry; apply Z.ltb_ge; lia).
    rewrite Hvs, Hpending. cbv zeta. fold scope header.
    rewrite resolveVar_component. unfold events.
    rewrite runComponent_enter by done. fold submitted. done. }
  rewrite Hbody. split; intros Hs.
  - by rewrite (bool_decide_eq_false_2 _ Hs).
  - by rewrite (bool_decide_eq_true_2 _ Hs).
Qed.




Lemma prefillFromEnv_def vs : def (prefillFromEnv env vs) = def vs.
Proof. unfold prefillFromEnv. by case_bool_decide. Qed.

Lemma prefillFromEnv_resolved vs : resolved (prefillFromEnv env vs) = resolved vs.
Proof. unfold prefillFromEnv. by case_bool_decide. Qed.




End Session.

(** ** The order of the scope entries in the substitution *)

(** C10: the substitution of the scope into a value-generating command
    depends on the order in which the range yields the entries when one
    name is a proper prefix of another: with env bound to prod and
    environment bound to staging, the command "echo $environment" becomes
    "echo prodironment" when env comes first and "echo staging" when
    environment comes first; both orders enumerate the scope. *)
Theorem substituteScope_order_dependent :
  [("env", "prod"); ("environment", "staging")] ≡ₚ map_to_list prefixScope
  /\ [("environment", "staging"); ("env", "prod")] ≡ₚ map_to_list prefixScope
  /\ substituteScope [("env", "prod"); ("environment", "staging")] "echo $environment"
     = "echo prodironment"
  /\ substituteScope [("environment", "staging"); ("env", "prod")] "echo $environment"
     = "echo staging"
  /\ replaceVar (replaceVar "echo $environment" "env" "prod") "environment" "staging"
     = replaceVar (replaceVar "echo $environment" "environment" "staging") "env" "prod".
Proof.
  assert (map_to_list prefixScope = [("env", "prod"); ("environment", "staging")]
          \/ map_to_list prefixScope = [("environment", "staging"); ("env", "prod")])
    as Horder by (vm_compute; auto).
  split_and!.
  - destruct Horder as [-> | ->]; [done|apply perm_swap].
  - destruct Horder as [-> | ->]; [apply perm_swap|done].
  - vm_compute. reflexivity.
  - vm_compute. reflexivity.
  - vm_compute. reflexivity.
Qed.

(** ** Examples *)

Example scan_deploy :
  findCommandVars "deploy $env to $env-$region" None = ["env"; "region"].
Proof. vm_compute. reflexivity. Qed.

Example scan_known_scope :
  findCommandVars "deploy $env to $region"
    (Some (<["env" := "prod"]> (<["region" := ""]> ∅)))
  = ["region"].
Proof. vm_compute. reflexivity. Qed.

Example split_abc :
  splitLines ("a" +:+ newline +:+ " b " +:+ newline +:+ newline +:+ "c" +:+ newline)
  = ["a"; "b"; "c"].
Proof. vm_compute. reflexivity. Qed.

(** With imports that form a cycle the collection comes back; the
    definition of a nested import is met before those of its importer, a
    local definition overrides, and an unknown name gets the synthetic
    definition. *)
Example collect_cyclic :
  collectVariables cyclicCheat cyclicIndex
  = Some [mkVarState (mkVarDef "x" "from-B" "") "" false "";
          mkVarState (mkVarDef "y" "local" "") "" false "";
          mkVarState (mkVarDef "z" "" "") "" false ""].
Proof. vm_compute. reflexivity. Qed.

Example header_argument :
  extractCustomHeader "--multi --header 'Pick an env' x" = "Pick an env".
Proof. vm_compute. reflexivity. Qed.

(** A whole session: the second candidate is chosen for the first
    variable, "eu" is typed for the second. *)
Example session_forward :
  Scope <$> (match resolveAllVariables sampleEnv deployCheat emptyIndex
                     [press "down"; press "enter"; press "e"; press "u"; press "enter"] with
             | Some (Returned false None cheat) => Some cheat
             | _ => None
             end)
  = Some (<["env" := "b"]> (<["region" := "eu"]> ∅)).
Proof. vm_compute. reflexivity. Qed.

Example session_interrupt :
  resolveAllVariables sampleEnv deployCheat emptyIndex
    [press "enter"; press "x"; press "ctrl+c"]
  = Some Exited.
Proof. vm_compute. reflexivity. Qed.

(** ** The properties at concrete inputs *)

(** C1, as stated, fails on the text __EXIT__: typed into the input prompt
    and submitted with the enter key, it is not recorded as the value of
    the variable; the process exits. *)
Lemma exit_text_not_recorded :
  Forall (fun msg => ¬ quits msg) typesExit
  /\ submittedValue (componentFor sampleEnv msgDef (buildScope echoVars)) "msg"
       (buildProgressHeader sampleEnv (Command echoCheat) echoVars 0)
       (extractCustomHeader (Args msgDef)) "" typesExit
     = "__EXIT__"
  /\ loopBody sampleEnv echoCheat echoVars 0
       ((Deliver <$> typesExit) ++ [Deliver (KeyMsg "enter")])
     = Stop Exited
  /\ loopBody sampleEnv echoCheat echoVars 0
       ((Deliver <$> typesExit) ++ [Deliver (KeyMsg "enter")])
     ≠ Continue (<[0 := mkVarState msgDef "__EXIT__" true ""]> echoVars) 1 [].
Proof.
  split_and!.
  - repeat constructor; intros [Hq|[Hq|Hq]]; discriminate Hq.
  - vm_compute. reflexivity.
  - vm_compute. reflexivity.
  - vm_compute. discriminate.
Qed.

Lemma submitted_value_recorded_witness :
  loopBody sampleEnv echoCheat echoVars 0
    ((Deliver <$> [KeyMsg "h"; KeyMsg "i"]) ++ Deliver (KeyMsg "enter") :: [])
  = Continue (<[Z.to_nat 0 := mkVarState msgDef "hi" true ""]> echoVars) (0 + 1) [].
Proof.
  refine (proj1 (submitted_value_recorded sampleEnv echoCheat echoVars 0
                   (mkVarState msgDef "" false "") [KeyMsg "h"; KeyMsg "i"] []
                   _ _ _ _) _).
  - lia.
  - reflexivity.
  - reflexivity.
  - repeat constructor; intros [Hq|[Hq|Hq]]; discriminate Hq.
  - vm_compute. discriminate.
Defined.

Lemma goBack_moves_back_witness :
  exists vars',
    loopBody sampleEnv deployCheat deployVars 1 [press "esc"] = Continue vars' 0 []
    /\ length vars' = 2
    /\ vars' !! 0 = Some (mkVarState envDef "" false "")
    /\ vars' !! 1 = Some (mkVarState regionDef "" false "").
Proof.
  destruct (goBack_moves_back sampleEnv deployCheat deployVars 1
              (mkVarState regionDef "" false "") "" None [press "esc"] [])
    as (vars' & Hbody & _ & Hlen & Hkeep & Hprev & _).
  - lia.
  - reflexivity.
  - reflexivity.
  - vm_compute. reflexivity.
  - exists vars'. split_and!.
    + exact Hbody.
    + exact Hlen.
    + destruct Hprev as (prev & Hp & Hp'); [lia|].
      injection Hp as <-. exact Hp'.
    + rewrite (Hkeep 1) by lia. reflexivity.
Defined.

(** C3, as stated, fails: with variable 0 resolved and the user prompted
    for variable 1, a go-back from variable 1 leaves variable 0 pending,
    not resolved. *)
Lemma goBack_unresolves_predecessor :
  resolved <$> deployVars !! 0 = Some true
  /\ resolveVar sampleEnv regionDef (buildScope deployVars)
       (buildProgressHeader sampleEnv (Command deployCheat) deployVars 1) "" [press "esc"]
     = Some (("", true, None), [])
  /\ loopBody sampleEnv deployCheat deployVars 1 [press "esc"]
     = Continue [mkVarState envDef "" false ""; mkVarState regionDef "" false ""] 0 []
  /\ ¬ (exists vars' i' events',
          loopBody sampleEnv deployCheat deployVars 1 [press "esc"]
          = Continue vars' i' events'
          /\ resolved <$> vars' !! 0 = Some true).
Proof.
  assert (loopBody sampleEnv deployCheat deployVars 1 [press "esc"]
          = Continue [mkVarState envDef "" false ""; mkVarState regionDef "" false ""] 0 [])
    as Hbody by (vm_compute; reflexivity).
  split_and!; [reflexivity|vm_compute; reflexivity|exact Hbody|].
  rewrite Hbody. intros (vars' & i' & events' & [= <- _ _] & Hres). discriminate Hres.
Qed.

Lemma goBack_invalidates_predecessor_witness :
  loopBody sampleEnv deployCheat ([] ++ mkVarState envDef "b" true ""
                                     :: mkVarState regionDef "" false "" :: [])
    (len (@nil varState) + 1) [press "esc"]
  = Continue ([] ++ mkVarState envDef "" false "" :: mkVarState regionDef "" false "" :: [])
      (len (@nil varState)) [].
Proof.
  refine (goBack_invalidates_predecessor sampleEnv deployCheat [] []
            (mkVarState envDef "b" true "") (mkVarState regionDef "" false "")
            "" None [press "esc"] [] _ _).
  - reflexivity.
  - vm_compute. reflexivity.
Defined.



(** * Further properties of the code *)

(** ** Names that the scanner returns *)

Lemma get_split i s c :
  String.get i s = Some c -> s = substring 0 i s +:+ String c (dropBytes (i + 1) s).
Proof.
  revert s. induction i as [|i IH]; intros [|c' s] Hget; simpl in *; try done.
  - by injection Hget as ->.
  - rewrite app_String. f_equal. by apply IH.
Qed.

Lemma takeWhile_all p s k c :
  String.get k (takeWhile p s) = Some c -> p c = true.
Proof.
  revert k. induction s as [|c0 s IH]; intros k; simpl; [by destruct k|].
  destruct (p c0) eqn:E; [|by destruct k].
  destruct k as [|k]; simpl; [by intros [= <-]|apply IH].
Qed.

Lemma references_elem cmd name :
  name ∈ references cmd ->
  exists i, String.get i cmd = Some "$"%char
    /\ name = nameAtHead (dropBytes (i + 1) cmd) /\ name ≠ "".
Proof.
  unfold references. intros (i & _ & Href)%list_elem_of_omap. exists i.
  unfold referenceAt in Href.
  destruct (bool_decide (String.get i cmd = Some "$"%char)) eqn:Hd; [|done].
  apply bool_decide_eq_true in Hd.
  destruct (negb _); simpl in Href; [|done].
  case_bool_decide as Hname; [done|]. by injection Href as <-.
Qed.

Lemma nameAtHead_accepted s : nameAtHead s ≠ "" -> acceptedName (nameAtHead s).
Proof.
  destruct s as [|c r]; simpl; [done|].
  destruct (identStart c) eqn:Hc; [|done]. intros _.
  exists c, (takeWhile identChar r). split_and!; [done|by rewrite isVarChar_first|].
  intros k c' Hk. rewrite isVarChar_rest. by apply takeWhile_all in Hk.
Qed.

Lemma findCommandVars_references cmd scope name :
  name ∈ findCommandVars cmd scope -> name ∈ references cmd.
Proof.
  rewrite findCommandVars_scanner. unfold scanner.
  rewrite distinct_elem_of, list_elem_of_filter. tauto.
Qed.

(** X1: every name that the scanner returns is a name as [isVarChar]
    accepts it, and it stands in the command behind a dollar. *)
Theorem findCommandVars_names (cmd : string) (scope : option (gmap string string))
    (name : string) :
  name ∈ findCommandVars cmd scope ->
  acceptedName name /\ substringOf ("$" +:+ name) cmd.
Proof.
  intros (i & Hd & Hname & Hne)%findCommandVars_references%references_elem.
  split.
  - rewrite Hname. apply nameAtHead_accepted. by rewrite <- Hname.
  - destruct (nameAtHead_split (dropBytes (i + 1) cmd)) as [t Ht].
    exists (substring 0 i cmd), t. rewrite (get_split i cmd _ Hd) at 1.
    f_equal. change (("$" +:+ name) +:+ t) with (String "$" (name +:+ t)).
    f_equal. by rewrite Hname, <- Ht.
Qed.

(** X2: scanning with a known scope is scanning without one and then
    dropping the names that the scope binds to a non-empty value. *)
Theorem findCommandVars_known_scope (cmd : string) (m : gmap string string) :
  findCommandVars cmd (Some m)
  = filter (fun name => m !!! name = "") (findCommandVars cmd None).
Proof.
  rewrite !findCommandVars_scanner. unfold scanner.
  rewrite filter_distinct, list_filter_filter. f_equal.
  apply list_filter_iff. intros name.
  rewrite <- (unbound_spec (Some m)), <- (unbound_spec None). simpl.
  rewrite bool_decide_eq_true. tauto.
Qed.

(** ** Lines of a command output *)

Lemma SplitLines_nonempty s : exists h t, GoStrings.SplitLines s = h :: t.
Proof.
  induction s as [|c s (h & t & IH)]; cbn [GoStrings.SplitLines]; [by eauto|].
  rewrite IH. destruct (Ascii.eqb c "010"); eauto.
Qed.

Lemma SplitLines_app a b :
  GoStrings.SplitLines (a +:+ String "010" b)
  = GoStrings.SplitLines a ++ GoStrings.SplitLines b.
Proof.
  induction a as [|c a IH]; [done|].
  rewrite app_String. cbn [GoStrings.SplitLines]. rewrite IH.
  destruct (Ascii.eqb c "010"); [done|].
  by destruct (SplitLines_nonempty a) as (h & t & ->).
Qed.

Lemma SplitLines_single s : noByte "010" s = true -> GoStrings.SplitLines s = [s].
Proof.
  induction s as [|c s IH]; [done|]. cbn [noByte GoStrings.SplitLines].
  intros [Hc Hs]%andb_true_iff. apply negb_true_iff in Hc. rewrite Hc, IH by done. done.
Qed.









(** X4: the lines of two texts joined by a line feed are the lines of the
    first followed by the lines of the second. *)
Theorem splitLines_app (a b : string) :
  splitLines (a +:+ newline +:+ b) = splitLines a ++ splitLines b.
Proof.
  rewrite !splitLines_trimmedLines. unfold trimmedLines.
  change (newline +:+ b) with (String "010" b).
  by rewrite SplitLines_app, fmap_app, filter_app.
Qed.



(** ** Arguments of a variable definition *)

Lemma list_ascii_app a b :
  list_ascii_of_string (a +:+ b) = list_ascii_of_string a ++ list_ascii_of_string b.
Proof. induction a as [|c a IH]; [done|]. rewrite app_String. simpl. by rewrite IH. Qed.

Lemma parseShellArgs_finish s : parseShellArgs s = argFinish (argStateAfter s).
Proof. reflexivity. Qed.

Lemma string_length_pos s : (0 <? String.length s)%nat = true -> s ≠ "".
Proof. by destruct s. Qed.

Lemma string_app_snoc_ne s c : s +:+ String c "" ≠ "".
Proof. by destruct s. Qed.

Lemma argStep_nonempty st c :
  Forall (fun a => a ≠ "") (args st) -> Forall (fun a => a ≠ "") (args (argStep st c)).
Proof.
  intros Hargs. unfold argStep.
  destruct (inQuote st); [by destruct (Ascii.eqb c (quoteChar st))|].
  destruct (Ascii.eqb c "034" || Ascii.eqb c "039")%bool; [done|].
  destruct (Ascii.eqb c " " || Ascii.eqb c "009")%bool; [|done].
  destruct (0 <? String.length (current st))%nat eqn:Hcur; [|done].
  simpl. apply Forall_app. split; [done|].
  constructor; [by apply string_length_pos|constructor].
Qed.

(** X6: no argument that [parseShellArgs] returns is empty. *)
Theorem parseShellArgs_nonempty (s : string) :
  Forall (fun a => a ≠ "") (parseShellArgs s).
Proof.
  rewrite parseShellArgs_finish. unfold argStateAfter.
  assert (forall l st, Forall (fun a => a ≠ "") (args st) ->
            Forall (fun a => a ≠ "") (args (foldl argStep st l))) as Hfold.
  { induction l as [|c l IH]; intros st Hst; [done|]. simpl. by apply IH, argStep_nonempty. }
  specialize (Hfold (list_ascii_of_string s) argStart ltac:(constructor)).
  unfold argFinish. destruct (0 <? String.length _)%nat eqn:Hcur; [|done].
  apply Forall_app. split; [done|].
  constructor; [by apply string_length_pos|constructor].
Qed.

Lemma argStep_rel args0 st1 st2 c :
  argRel args0 st1 st2 -> argRel args0 (argStep st1 c) (argStep st2 c).
Proof.
  intros (Hargs & Hcur & Hin & Hq). unfold argStep, argRel.
  rewrite <- Hin, <- Hcur. destruct (inQuote st1) eqn:E.
  - rewrite <- (Hq eq_refl). destruct (Ascii.eqb c (quoteChar st1)); simpl; auto.
  - destruct (Ascii.eqb c "034" || Ascii.eqb c "039")%bool; [simpl; auto|].
    destruct (Ascii.eqb c " " || Ascii.eqb c "009")%bool.
    + destruct (0 <? String.length (current st1))%nat; simpl;
        rewrite ?Hargs, <- ?app_assoc, ?E; split_and!; auto.
    + simpl. split_and!; auto.
Qed.

Lemma foldl_argStep_rel args0 l st1 st2 :
  argRel args0 st1 st2 -> argRel args0 (foldl argStep st1 l) (foldl argStep st2 l).
Proof.
  revert st1 st2. induction l as [|c l IH]; intros st1 st2 Hrel; [done|].
  simpl. by apply IH, argStep_rel.
Qed.

Lemma argFinish_rel args0 st1 st2 :
  argRel args0 st1 st2 -> argFinish st1 = args0 ++ argFinish st2.
Proof.
  intros (Hargs & Hcur & _). unfold argFinish. rewrite Hargs, Hcur.
  destruct (0 <? String.length (current st2))%nat; by rewrite <- ?app_assoc.
Qed.

(** X7: when the first of two texts ends outside a quotation, the
    arguments of the two texts joined by a blank are the arguments of the
    first followed by those of the second. *)
Theorem parseShellArgs_app (a b : string) :
  inQuote (argStateAfter a) = false ->
  parseShellArgs (a +:+ " " +:+ b) = parseShellArgs a ++ parseShellArgs b.
Proof.
  intros Hout. rewrite !parseShellArgs_finish. unfold argStateAfter at 1.
  rewrite list_ascii_app, foldl_app. fold (argStateAfter a).
  change (list_ascii_of_string (" " +:+ b)) with (" "%char :: list_ascii_of_string b).
  cbn [foldl].
  apply (argFinish_rel (argFinish (argStateAfter a))), foldl_argStep_rel.
  unfold argStep, argFinish, argRel, argStart. rewrite Hout. simpl.
  destruct (0 <? String.length (current (argStateAfter a)))%nat eqn:Hcur; simpl.
  - rewrite app_nil_r. split_and!; done.
  - rewrite app_nil_r, Hout. split_and!; try done.
    by destruct (current (argStateAfter a)).
Qed.

Lemma string_app_assoc a b c : (a +:+ b) +:+ c = a +:+ (b +:+ c).
Proof. induction a as [|x a IH]; [done|]. by rewrite !app_String, IH. Qed.

Lemma string_app_nil_r a : a +:+ "" = a.
Proof. induction a as [|x a IH]; [done|]. by rewrite app_String, IH. Qed.

Lemma foldl_argStep_quoted args0 cur q w :
  noByte q w = true ->
  foldl argStep (mkArgState args0 cur true q) (list_ascii_of_string w)
  = mkArgState args0 (cur +:+ w) true q.
Proof.
  revert cur. induction w as [|c w IH]; intros cur Hw; simpl.
  { by rewrite string_app_nil_r. }
  simpl in Hw. apply andb_true_iff in Hw as [Hc Hw]. apply negb_true_iff in Hc.
  unfold argStep at 2. simpl. rewrite Hc, IH by done.
  f_equal. by rewrite string_app_assoc.
Qed.

(** X8: a header given in quotes is returned as it is written between the
    quotes, blanks included: for either quote byte and a text that does
    not contain it. *)
Theorem extractCustomHeader_quoted (q : ascii) (w : string) :
  q = "039"%char \/ q = "034"%char ->
  noByte q w = true ->
  extractCustomHeader ("--header " +:+ String q (w +:+ String q "")) = w.
Proof.
  intros Hq Hw. unfold extractCustomHeader.
  rewrite bool_decide_eq_false_2 by done.
  rewrite parseShellArgs_finish. unfold argStateAfter.
  rewrite list_ascii_app, foldl_app.
  assert (foldl argStep argStart (list_ascii_of_string "--header ")
          = mkArgState ["--header"] "" false "000") as -> by reflexivity.
  cbn [list_ascii_of_string foldl]. 
  assert (argStep (mkArgState ["--header"] "" false "000") q
          = mkArgState ["--header"] "" true q) as ->.
  { by destruct Hq as [-> | ->]. }
  rewrite list_ascii_app, foldl_app, foldl_argStep_quoted by done.
  simpl. unfold argStep. simpl. rewrite Ascii.eqb_refl.
  unfold argFinish. simpl. destruct w as [|c w]; [done|]. reflexivity.
Qed.

(** ** Replacement of a variable reference *)

Lemma substringOf_tail tok c s : substringOf tok s -> substringOf tok (String c s).
Proof. intros (pre & post & ->). by exists (String c pre), post. Qed.

Lemma replaceVarFrom_absent pat replacement s :
  ¬ substringOf pat s -> replaceVarFrom pat replacement 0 s = s.
Proof.
  induction s as [|c s IH]; intros Habs; [done|]. cbn [replaceVarFrom].
  destruct (String.prefix pat (String c s)) eqn:Hp.
  { apply prefix_spec in Hp as [post Hpost]. destruct Habs. by exists "", post. }
  simpl. f_equal. apply IH. intros Hs. by apply Habs, substringOf_tail.
Qed.

(** X9: [replaceVar] leaves a command in which the dollar-name does not
    occur as it is. *)
Theorem replaceVar_absent (cmd varName replacement : string) :
  ¬ substringOf ("$" +:+ varName) cmd -> replaceVar cmd varName replacement = cmd.
Proof. apply replaceVarFrom_absent. Qed.

Lemma noByte_app c a b : noByte c (a +:+ b) = (noByte c a && noByte c b)%bool.
Proof.
  induction a as [|x a IH]; [done|]. rewrite app_String. simpl.
  by rewrite IH, andb_assoc.
Qed.

Lemma noByte_not_substring c tok s :
  noByte c s = true -> ¬ substringOf (String c tok) s.
Proof.
  intros Hs (pre & post & ->). rewrite noByte_app in Hs.
  apply andb_true_iff in Hs as [_ Hs]. rewrite app_String in Hs. simpl in Hs.
  by rewrite Ascii.eqb_refl in Hs.
Qed.

Lemma get_length_app p c r : String.get (String.length p) (p +:+ String c r) = Some c.
Proof. induction p as [|x p IH]; [done|]. rewrite app_String. simpl. apply IH. Qed.

Lemma prefix_app p s : String.prefix p (p +:+ s) = true.
Proof. apply prefix_spec. by exists s. Qed.

Lemma lastByte_String c p l : lastByte p = Some l -> lastByte (String c p) = Some l.
Proof.
  unfold lastByte. destruct p as [|x p]; [done|]. simpl String.length.
  by intros Hl.
Qed.

Lemma replaceFrom_absent old new s :
  ¬ substringOf old s -> GoStrings.replaceFrom old new 0 s = s.
Proof.
  induction s as [|c s IH]; intros Habs; [done|]. cbn [GoStrings.replaceFrom].
  destruct (String.prefix old (String c s)) eqn:Hp.
  { apply prefix_spec in Hp as [post Hpost]. destruct Habs. by exists "", post. }
  f_equal. apply IH. intros Hs. by apply Habs, substringOf_tail.
Qed.

Lemma replaceFrom_skip old new n s :
  GoStrings.replaceFrom old new n s = GoStrings.replaceFrom old new 0 (dropBytes n s).
Proof.
  revert s. induction n as [|n IH]; intros s; [done|].
  destruct s as [|c s]; [done|]. simpl. apply IH.
Qed.

Lemma replaceVarFrom_skip pat new n s :
  replaceVarFrom pat new n s = replaceVarFrom pat new 0 (dropBytes n s).
Proof.
  revert s. induction n as [|n IH]; intros s; [done|].
  destruct s as [|c s]; [done|]. simpl. apply IH.
Qed.

Lemma dropBytes_app p s : dropBytes (String.length p) (p +:+ s) = s.
Proof. induction p as [|x p IH]; [done|]. rewrite app_String. simpl. apply IH. Qed.

Lemma replaceFrom_head c old new s :
  GoStrings.replaceFrom (String c old) new 0 (String c old +:+ s)
  = new +:+ GoStrings.replaceFrom (String c old) new 0 s.
Proof.
  pose proof (prefix_app (String c old) s) as Hp. rewrite app_String in Hp |- *.
  unfold GoStrings.replaceFrom at 1. fold GoStrings.replaceFrom. rewrite Hp.
  f_equal. rewrite replaceFrom_skip.
  replace (String.length (String c old) - 1) with (String.length old) by (simpl; lia).
  by rewrite dropBytes_app.
Qed.

(** X10: where a longer name starts with the name, [replaceVar] leaves the
    reference to the longer name alone, while the substitution into a
    value-generating command rewrites its head. *)
Theorem replaceVar_longer_name (varName suffix replacement : string) (l c : ascii)
    (rest : string) :
  lastByte varName = Some l -> isWord l = true ->
  suffix = String c rest -> isWord c = true ->
  noByte "$" (varName +:+ suffix) = true ->
  replaceVar ("$" +:+ varName +:+ suffix) varName replacement
  = "$" +:+ varName +:+ suffix
  /\ substituteScope [(varName, replacement)] ("$" +:+ varName +:+ suffix)
     = replacement +:+ suffix.
Proof.
  intros Hl Hwl -> Hwc Hno. split.
  - unfold replaceVar.
    change ("$" +:+ varName +:+ String c rest) with (String "$" (varName +:+ String c rest)).
    cbn [replaceVarFrom].
    change (String "$" (varName +:+ String c rest))
      with (("$" +:+ varName) +:+ String c rest).
    rewrite prefix_app. unfold boundaryAfter.
    rewrite get_length_app.
    change ("$" +:+ varName) with (String "$" varName).
    rewrite (lastByte_String _ _ _ Hl), Hwl, Hwc. simpl.
    change (String "$" varName +:+ String c rest)
      with (String "$" (varName +:+ String c rest)).
    f_equal. apply replaceVarFrom_absent. by apply noByte_not_substring.
  - unfold substituteScope. cbn [foldl].
    change (GoStrings.ReplaceAll ("$" +:+ varName +:+ String c rest) ("$" +:+ varName)
              replacement)
      with (GoStrings.replaceFrom (String "$" varName) replacement 0
              (String "$" varName +:+ String c rest)).
    rewrite replaceFrom_head. f_equal. apply replaceFrom_absent.
    apply noByte_not_substring. rewrite noByte_app in Hno.
    by apply andb_true_iff in Hno as [_ ?].
Qed.

Lemma ReplaceAll_no_dollar s name value :
  noByte "$" s = true -> GoStrings.ReplaceAll s ("$" +:+ name) value = s.
Proof.
  intros Hs. change ("$" +:+ name) with (String "$" name). unfold GoStrings.ReplaceAll.
  apply replaceFrom_absent. by apply noByte_not_substring.
Qed.

(** X11: a value-generating command without a dollar is left as it is by
    the substitution of the scope, whatever the scope and the order of its
    entries. *)
Theorem substituteScope_no_dollar (entries : list (string * string)) (shellCmd : string) :
  noByte "$" shellCmd = true -> substituteScope entries shellCmd = shellCmd.
Proof.
  intros Hs. unfold substituteScope.
  induction entries as [|[name value] entries IH]; [done|].
  cbn [foldl]. by rewrite ReplaceAll_no_dollar.
Qed.

(** ** The scope built from the variables *)

Lemma foldl_scope_union (vars : list varState) (m : gmap string string) :
  foldl (fun scope vs =>
           if resolved vs then <[Name (def vs) := value vs]> scope else scope) m vars
  = buildScope vars ∪ m.
Proof.
  unfold buildScope. induction vars as [|vs vars IH] using rev_ind.
  { simpl. by rewrite (left_id ∅ (∪)). }
  rewrite !foldl_app. cbn [foldl]. rewrite IH.
  destruct (resolved vs); [|done]. by rewrite insert_union_l.
Qed.

(** X12: the scope that a completed session leaves in the command is the
    scope built from the resolved variables, laid over the scope that the
    command had. *)
Theorem copyToScope_buildScope (cheat : Cheat) (vars : list varState) :
  Scope (copyToScope cheat vars) = buildScope vars ∪ Scope cheat.
Proof. apply foldl_scope_union. Qed.

Lemma buildScope_snoc vars vs :
  buildScope (vars ++ [vs])
  = if resolved vs then <[Name (def vs) := value vs]> (buildScope vars)
    else buildScope vars.
Proof. unfold buildScope. by rewrite foldl_app. Qed.

Lemma buildScope_is_Some vars name :
  is_Some (buildScope vars !! name)
  <-> exists vs, vs ∈ vars /\ resolved vs = true /\ Name (def vs) = name.
Proof.
  induction vars as [|vs vars IH] using rev_ind.
  { split; [by intros [? ?]|]. intros (vs & Hin & _). by apply elem_of_nil in Hin. }
  rewrite buildScope_snoc. setoid_rewrite elem_of_app. setoid_rewrite list_elem_of_singleton.
  destruct (resolved vs) eqn:Hres.
  - rewrite lookup_insert_is_Some, IH. split.
    + intros [<-|[_ (vs' & ? & ? & ?)]]; [exists vs|exists vs']; auto.
    + intros (vs' & [Hin| ->] & ? & ?).
      * destruct (decide (Name (def vs) = name)); [by left|right]. split; [done|]. eauto.
      * by left.
  - rewrite IH. split.
    + intros (vs' & ? & ? & ?). exists vs'. auto.
    + intros (vs' & [Hin| ->] & ? & ?); [eauto|congruence].
Qed.

(** X13: when the variables have pairwise different names, the scope built
    from them binds a name to a value exactly when a variable of this name
    is resolved with this value; pending variables are left out. *)
Theorem buildScope_lookup (vars : list varState) (name v : string) :
  NoDup ((fun vs => Name (def vs)) <$> vars) ->
  buildScope vars !! name = Some v <-> resolvedAs vars name v.
Proof.
  unfold resolvedAs. induction vars as [|vs vars IH] using rev_ind; intros Hnd.
  { split; [done|]. intros (vs & Hin & _). by apply elem_of_nil in Hin. }
  rewrite fmap_app in Hnd. apply NoDup_app in Hnd as (Hnd & Hfresh & _).
  specialize (IH Hnd). rewrite buildScope_snoc.
  setoid_rewrite elem_of_app. setoid_rewrite list_elem_of_singleton.
  assert (forall vs', vs' ∈ vars -> Name (def vs') ≠ Name (def vs)) as Hother.
  { intros vs' Hin Heq. apply (Hfresh (Name (def vs'))).
    - apply list_elem_of_fmap. eauto.
    - rewrite Heq. simpl. left. }
  destruct (resolved vs) eqn:Hres.
  - destruct (decide (Name (def vs) = name)) as [<-|Hne].
    + rewrite lookup_insert_eq. split.
      * intros [= <-]. exists vs. auto.
      * intros (vs' & [Hin| ->] & _ & Hn & <-); [by apply Hother in Hin|done].
    + rewrite lookup_insert_ne, IH by done. split.
      * intros (vs' & ? & ? & ? & ?). exists vs'. auto.
      * intros (vs' & [Hin| ->] & ? & ? & ?); [eauto|congruence].
  - rewrite IH. split.
    + intros (vs' & ? & ? & ? & ?). exists vs'. auto.
    + intros (vs' & [Hin| ->] & ? & ? & ?); [eauto|congruence].
Qed.

(** ** Outcomes of a step and of the session *)

Section SessionMore.
Context {T : Type} `{TextInput T} (env : Env).

Lemma runProgram_consumes {M : Type} (update : M -> Msg -> M * bool) m events r rest :
  runProgram update m events = Some (r, rest) ->
  exists consumed, consumed ≠ [] /\ events = consumed ++ rest.
Proof.
  revert m. induction events as [|[msg|err] events IH]; intros m; simpl; [done| |].
  - destruct (update m msg) as [m' [|]].
    + intros [= <- <-]. by exists [Deliver msg].
    + intros (consumed & _ & ->)%IH. by exists (Deliver msg :: consumed).
  - intros [= <- <-]. by exists [RunFails err].
Qed.

Lemma runComponent_consumes c name header customHeader prefill events res rest :
  runComponent c name header customHeader prefill events = Some (res, rest) ->
  exists consumed, consumed ≠ [] /\ events = consumed ++ rest.
Proof.
  destruct c as [|candidates]; simpl.
  - unfold PromptWithTUI.
    destruct (runProgram _ _ _) as [[[final|err] rest']|] eqn:Hrun; [| |done].
    + apply runProgram_consumes in Hrun. case_bool_decide.
      * by intros [= <- <-].
      * by destruct (in_cancelled final); intros [= <- <-].
    + apply runProgram_consumes in Hrun. by intros [= <- <-].
  - unfold SelectWithTUI.
    destruct (runProgram _ _ _) as [[[final|err] rest']|] eqn:Hrun; [| |done].
    + apply runProgram_consumes in Hrun. case_bool_decide.
      * by intros [= <- <-].
      * by destruct (cancelled final); intros [= <- <-].
    + apply runProgram_consumes in Hrun. by intros [= <- <-].
Qed.

(** X14: whatever [resolveVar] returns follows the protocol of the three
    results: go-back comes with an empty value and no error, an error with
    an empty value and no go-back; and the call has taken a non-empty
    front part of the events and nothing else. *)
Theorem resolveVar_outcome (v : VarDef) (scope : gmap string string)
    (header prefill : string) (events rest : list event)
    (val : string) (goBack : bool) (err : option string) :
  resolveVar env v scope header prefill events = Some ((val, goBack, err), rest) ->
  (goBack = true -> val = "" /\ err = None)
  /\ (is_Some err -> val = "" /\ goBack = false)
  /\ exists consumed, consumed ≠ [] /\ events = consumed ++ rest.
Proof.
  intros Hres. pose proof Hres as [Htag _]%resolveVar_tagged.
  rewrite resolveVar_component in Hres. apply runComponent_consumes in Hres.
  split_and!; [| |done].
  - intros ->. by destruct Htag as [[e [=]]|[[=]|[[= -> ->]|(v' & _ & [=])]]].
  - intros [e ->]. by destruct Htag as [[e' [= -> ->]]|[[=]|[[=]|(v' & _ & [=])]]].
Qed.

Lemma runProgram_quiet_fails {M : Type} (update : M -> Msg -> M * bool) m quiet err rest :
  (forall m' msg, msg ∈ quiet -> snd (update m' msg) = false) ->
  runProgram update m ((Deliver <$> quiet) ++ RunFails err :: rest)
  = Some (inr err, rest).
Proof.
  revert m. induction quiet as [|msg quiet IH]; intros m Hquiet; simpl; [done|].
  pose proof (Hquiet m msg ltac:(left)) as Hmsg.
  destruct (update m msg) as [m' quit] eqn:E. simpl in Hmsg. subst quit.
  apply IH. intros m'' msg' Hin. apply Hquiet. by right.
Qed.

Lemma runComponent_fails c name header customHeader prefill quiet err rest :
  Forall (fun msg => ¬ quits msg) quiet ->
  runComponent c name header customHeader prefill
    ((Deliver <$> quiet) ++ RunFails err :: rest)
  = Some (("", false, Some err), rest).
Proof.
  intros Hquiet. destruct c as [|candidates]; simpl.
  - unfold PromptWithTUI. rewrite runProgram_quiet_fails; [done|].
    intros m' msg Hin. apply in_Update_quiet. by apply (proj1 (Forall_forall _ _) Hquiet).
  - unfold SelectWithTUI. rewrite runProgram_quiet_fails; [done|].
    intros m' msg Hin. apply Update_quiet. by apply (proj1 (Forall_forall _ _) Hquiet).
Qed.

Lemma resolveLoop_step cheat vars i events rounds :
  (i < len vars)%Z ->
  resolveLoop env (S rounds) cheat vars i events
  = match loopBody env cheat vars i events with
    | Continue vars' i' events' => resolveLoop env rounds cheat vars' i' events'
    | Stop r => Some r
    end.
Proof.
  intros Hi. cbn [resolveLoop].
  by replace (i <? len vars)%Z with true by (symmetry; apply Z.ltb_lt; lia).
Qed.

Lemma loopBody_pending cheat vars i vs events :
  (0 <= i)%Z -> vars !! Z.to_nat i = Some vs -> resolved vs = false ->
  loopBody env cheat vars i events
  = match resolveVar env (def vs) (buildScope vars)
            (buildProgressHeader env (Command cheat) vars i) (prefill vs) events with
    | None => Stop Blocked
    | Some ((_, _, Some err), _) => Stop (Returned false (Some err) cheat)
    | Some ((val, goBack, None), events') =>
        if bool_decide (val = "__EXIT__") then Stop Exited
        else if goBack then
          if (0 <=? i - 1)%Z
          then Continue (alter setPending (Z.to_nat (i - 1)) vars) (i - 1) events'
          else Continue vars (i - 1) events'
        else Continue (<[Z.to_nat i := setResolved val vs]> vars) (i + 1) events'
    end.
Proof.
  intros Hi Hvs Hpend. unfold loopBody.
  replace (i <? 0)%Z with false by (symmetry; apply Z.ltb_ge; lia).
  by rewrite Hvs, Hpend.
Qed.

(** X15: an interrupt at any step ends the process: with a pending variable
    under the cursor, the key ctrl+c after any messages that do not end the
    run of the component makes the session exit, wherever the cursor is and
    whatever was resolved before. *)
Theorem interrupt_ends_process (cheat : Cheat) (vars : list varState) (i : Z)
    (vs : varState) (quiet : list Msg) (rest : list event) (rounds : nat) :
  (0 <= i)%Z -> vars !! Z.to_nat i = Some vs -> resolved vs = false ->
  Forall (fun msg => ¬ quits msg) quiet ->
  resolveLoop env (S rounds) cheat vars i
    ((Deliver <$> quiet) ++ Deliver (KeyMsg "ctrl+c") :: rest)
  = Some Exited.
Proof.
  intros Hi Hvs Hpend Hquiet.
  rewrite resolveLoop_step by (apply lookup_lt_Some in Hvs; unfold len; lia).
  by rewrite (interrupt_exits env cheat vars i vs quiet rest).
Qed.

(** X16: a failure of the interactive program at any step is returned as
    the error of the session, with no go-back, and the command is left as
    it was: the values resolved so far are not written to its scope. *)
Theorem program_failure_returned (cheat : Cheat) (vars : list varState) (i : Z)
    (vs : varState) (quiet : list Msg) (err : string) (rest : list event)
    (rounds : nat) :
  (0 <= i)%Z -> vars !! Z.to_nat i = Some vs -> resolved vs = false ->
  Forall (fun msg => ¬ quits msg) quiet ->
  resolveLoop env (S rounds) cheat vars i
    ((Deliver <$> quiet) ++ RunFails err :: rest)
  = Some (Returned false (Some err) cheat).
Proof.
  intros Hi Hvs Hpend Hquiet.
  rewrite resolveLoop_step by (apply lookup_lt_Some in Hvs; unfold len; lia).
  rewrite (loopBody_pending cheat vars i vs) by done.
  by rewrite resolveVar_component, runComponent_fails.
Qed.

(** X17: the escape key at the first variable of a command that has
    variables returns to the caller with the go-back signal and no error,
    and leaves the command as it was. *)
Theorem escape_at_first_variable (cheat : Cheat) (index : CheatIndex)
    (quiet : list Msg) (rest : list event) :
  findCommandVars (Command cheat) None ≠ [] ->
  Forall (fun msg => ¬ quits msg) quiet ->
  resolveAllVariables env cheat index
    ((Deliver <$> quiet) ++ Deliver (KeyMsg "esc") :: rest)
  = Some (Returned true None cheat).
Proof.
  intros Hused Hquiet. unfold resolveAllVariables.
  destruct (collectVariables_chosen cheat index) as (st & _ & _ & Hcollect).
  rewrite Hcollect.
  destruct (findCommandVars (Command cheat) None) as [|name names]; [done|].
  cbn [fmap list_fmap]. rewrite bool_decide_eq_false_2 by done.
  unfold roundBound. cbn [length Nat.mul Nat.add].
  rewrite resolveLoop_step by (unfold len; simpl; lia).
  erewrite loopBody_pending; [|lia|reflexivity|].
  2:{ simpl. by rewrite prefillFromEnv_resolved. }
  rewrite escape_goes_back by done. simpl. reflexivity.
Qed.

End SessionMore.

(** ** The scope after a session *)

Section SessionOutcome.
Context {T : Type} `{TextInput T} (env : Env).

Lemma def_alter_setPending k (vars : list varState) :
  def <$> alter setPending k vars = def <$> vars.
Proof.
  apply list_eq. intros j. rewrite !list_lookup_fmap.
  destruct (decide (k = j)) as [->|Hne].
  - rewrite list_lookup_alter_eq. by destruct (vars !! j).
  - by rewrite list_lookup_alter_ne.
Qed.

Lemma def_insert_setResolved k v vs (vars : list varState) :
  vars !! k = Some vs -> def <$> <[k := setResolved v vs]> vars = def <$> vars.
Proof.
  intros Hk. rewrite list_fmap_insert. apply list_insert_id.
  by rewrite list_lookup_fmap, Hk.
Qed.

(** What a run of the loop returns, when every variable before the
    cursor is resolved: success comes with the scope of variables that are
    all resolved, anything else with the command as it was. *)
Lemma resolveLoop_outcome cheat rounds :
  forall vars i events goBack err cheat',
    Forall (fun vs => resolved vs = true) (take (Z.to_nat i) vars) ->
    resolveLoop env rounds cheat vars i events = Some (Returned goBack err cheat') ->
    (goBack = false /\ err = None
     /\ exists vars', cheat' = copyToScope cheat vars'
          /\ Forall (fun vs => resolved vs = true) vars'
          /\ def <$> vars' = def <$> vars)
    \/ ((goBack = true \/ is_Some err) /\ cheat' = cheat).
Proof.
  induction rounds as [|rounds IH]; intros vars i events goBack err cheat' Hbefore Hrun;
    [done|].
  cbn [resolveLoop] in Hrun. destruct (Z.ltb_spec i (len vars)) as [Hlt|Hge].
  2:{ injection Hrun as <- <- <-. left. split_and!; [done|done|].
      exists vars. split_and!; [done| |done].
      rewrite take_ge in Hbefore; [done|]. unfold len in Hge. lia. }
  unfold loopBody in Hrun. destruct (Z.ltb_spec i 0) as [Hneg|Hpos].
  { injection Hrun as <- <- <-. right. auto. }
  destruct (vars !! Z.to_nat i) as [vs|] eqn:Hvs; [|done].
  destruct (resolved vs) eqn:Hres.
  { apply IH in Hrun; [done|].
    replace (Z.to_nat (i + 1)) with (S (Z.to_nat i)) by lia.
    rewrite (take_S_r _ _ vs) by done. apply Forall_app. split; [done|]. by constructor. }
  cbv zeta in Hrun.
  destruct (resolveVar _ _ _ _ _ _) as [[[[val gb] [e|]] events']|]; [| |done].
  { injection Hrun as <- <- <-. right. eauto. }
  case_bool_decide; [done|]. destruct gb.
  - destruct (Z.leb_spec 0 (i - 1)) as [Hprev|Hprev].
    + apply IH in Hrun.
      * destruct Hrun as [(? & ? & vars' & ? & ? & Hd)|?]; [left|by right].
        rewrite (def_alter_setPending (Z.to_nat (i - 1)) vars) in Hd. eauto 10.
      * rewrite take_alter_ge by lia.
        replace (Z.to_nat i) with (Z.to_nat (i - 1) + 1) in Hbefore by lia.
        rewrite <- take_take_drop in Hbefore.
        by apply Forall_app in Hbefore as [? _].
    + apply IH in Hrun; [done|]. replace (Z.to_nat (i - 1)) with 0 by lia. constructor.
  - apply IH in Hrun.
    + destruct Hrun as [(? & ? & vars' & ? & ? & Hd)|?]; [left|by right].
      rewrite (def_insert_setResolved (Z.to_nat i) val vs vars Hvs) in Hd. eauto 10.
    + replace (Z.to_nat (i + 1)) with (S (Z.to_nat i)) by lia.
      rewrite (take_S_r _ _ (setResolved val vs)).
      2:{ apply list_lookup_insert_eq. by apply lookup_lt_Some in Hvs. }
      rewrite take_insert_ge by lia. apply Forall_app. split; [done|]. by constructor.
Qed.

(** X18: when the session returns success, whatever the way back and forth
    through the variables was, the scope of the command binds every
    variable that the command uses, and outside these names it is the scope
    that the command had. *)
Theorem success_binds_every_variable (cheat cheat' : Cheat) (index : CheatIndex)
    (events : list event) :
  resolveAllVariables env cheat index events = Some (Returned false None cheat') ->
  (forall name, name ∈ findCommandVars (Command cheat) None ->
     is_Some (Scope cheat' !! name))
  /\ (forall name, name ∉ findCommandVars (Command cheat) None ->
        Scope cheat' !! name = Scope cheat !! name).
Proof.
  unfold resolveAllVariables.
  destruct (collectVariables cheat index) as [vars|] eqn:Hcollect; [|done].
  destruct (collectVariables_shape cheat index vars Hcollect) as [Hnames _].
  case_bool_decide as Hempty.
  { intros [= <-]. destruct vars; [|done]. simpl in Hnames. rewrite <- Hnames.
    split; [|done]. intros name Hin. by apply elem_of_nil in Hin. }
  intros Hrun. apply resolveLoop_outcome in Hrun; [|constructor].
  destruct Hrun as [(_ & _ & vars' & -> & Hall & Hdefs)|[[[=]|[? [=]]] _]].
  assert ((fun vs => Name (def vs)) <$> vars' = findCommandVars (Command cheat) None)
    as Hnames'.
  { rewrite <- Hnames.
    change (fun vs : varState => Name (def vs)) with (Name ∘ def).
    rewrite !list_fmap_compose, Hdefs, <- !list_fmap_compose.
    apply list_fmap_ext. intros _ vs _. simpl. by rewrite prefillFromEnv_def. }
  rewrite copyToScope_buildScope. split; intros name Hname.
  - assert (is_Some (buildScope vars' !! name)) as [v Hv].
    { apply buildScope_is_Some. rewrite <- Hnames' in Hname.
      apply list_elem_of_fmap in Hname as (vs & -> & Hin). exists vs.
      split_and!; [done| |done]. by apply (proj1 (Forall_forall _ _) Hall). }
    exists v. by apply lookup_union_Some_l.
  - apply lookup_union_r. apply eq_None_not_Some. intros Hsome.
    apply buildScope_is_Some in Hsome as (vs & Hin & _ & Hn). apply Hname.
    rewrite <- Hnames', <- Hn. apply list_elem_of_fmap. eauto.
Qed.

(** X19: when the session returns with the go-back signal or with an error,
    the command is as it was: nothing that was resolved on the way is
    written to its scope. *)
Theorem no_partial_scope (cheat cheat' : Cheat) (index : CheatIndex)
    (events : list event) (goBack : bool) (err : option string) :
  resolveAllVariables env cheat index events = Some (Returned goBack err cheat') ->
  goBack = true \/ is_Some err ->
  cheat' = cheat.
Proof.
  unfold resolveAllVariables.
  destruct (collectVariables cheat index) as [vars|]; [|done].
  case_bool_decide as Hempty.
  { by intros [= <- <- <-]. }
  intros Hrun Hnot. apply resolveLoop_outcome in Hrun; [|constructor].
  destruct Hrun as [(-> & -> & _)|[_ ->]]; [|done].
  by destruct Hnot as [[=]|[? [=]]].
Qed.

End SessionOutcome.

(** ** Imports that the index does not know *)

Section Unknown.
Variable index : CheatIndex.

Lemma sameKnown_markSeen x st1 st2 :
  sameKnown index st1 st2 -> sameKnown index (markSeen x st1) (markSeen x st2).
Proof.
  intros (Hd & Hl & Hs). split_and!; simpl; [done|done|].
  intros name Hk. specialize (Hs name Hk). set_solver.
Qed.

Lemma sameKnown_markSeen_l x st1 st2 :
  Modules index !! x = None ->
  sameKnown index st1 st2 -> sameKnown index (markSeen x st1) st2.
Proof.
  intros Hx (Hd & Hl & Hs). split_and!; simpl; [done|done|].
  intros name Hk. specialize (Hs name Hk).
  assert (name ≠ x) by (intros ->; destruct Hk as [? Hk]; congruence). set_solver.
Qed.

Lemma sameKnown_markSeen_r x st1 st2 :
  Modules index !! x = None ->
  sameKnown index st1 st2 -> sameKnown index st1 (markSeen x st2).
Proof.
  intros Hx (Hd & Hl & Hs). split_and!; simpl; [done|done|].
  intros name Hk. specialize (Hs name Hk).
  assert (name ≠ x) by (intros ->; destruct Hk as [? Hk]; congruence). set_solver.
Qed.

Lemma sameKnown_addImported vars st1 st2 :
  sameKnown index st1 st2 ->
  sameKnown index (foldl addImported st1 vars) (foldl addImported st2 vars).
Proof.
  revert st1 st2. induction vars as [|v vars IH]; intros st1 st2 Hsame; [done|].
  simpl. apply IH. destruct Hsame as (Hd & Hl & Hs).
  split_and!; simpl; [by rewrite Hd|by rewrite Hl|done].
Qed.

(** The same imports traversed from two such states end in two such
    states. *)
Lemma collectFromImports_sameKnown depth :
  forall imports st1 st2 st1',
    sameKnown index st1 st2 ->
    collectFromImports depth index imports st1 = Some st1' ->
    exists st2', collectFromImports depth index imports st2 = Some st2'
      /\ sameKnown index st1' st2'.
Proof.
  induction depth as [|depth IHd]; [done|].
  induction imports as [|x rest IHi]; intros st1 st2 st1' Hsame Hrun;
    cbn in Hrun |- *.
  { injection Hrun as <-. eauto. }
  destruct (Modules index !! x) as [module|] eqn:Hx.
  - assert (x ∈ seen st1 <-> x ∈ seen st2) as Hseen.
    { destruct Hsame as (_ & _ & Hs). apply Hs. by eexists. }
    case_bool_decide as H1.
    + rewrite bool_decide_eq_true_2 by tauto. by apply (IHi st1).
    + rewrite bool_decide_eq_false_2 by tauto.
      destruct (collectFromImports depth index (ModImports module) (markSeen x st1))
        as [st1n|] eqn:Hnested; [|done].
      destruct (IHd _ _ (markSeen x st2) _ (sameKnown_markSeen x _ _ Hsame) Hnested)
        as (st2n & -> & Hsame').
      apply (IHi (foldl addImported st1n (ModVars module))); [|done].
      by apply sameKnown_addImported.
  - repeat case_bool_decide; eapply IHi; try exact Hrun;
      auto using sameKnown_markSeen_l, sameKnown_markSeen_r.
Qed.

(** Dropping the import names that the index does not know changes
    nothing in the definitions that the traversal collects. *)
Lemma collectFromImports_known depth :
  forall imports st1 st2 st1',
    sameKnown index st1 st2 ->
    collectFromImports (S depth) index imports st1 = Some st1' ->
    exists st2',
      collectFromImports (S depth) index (filter (known index) imports) st2 = Some st2'
      /\ sameKnown index st1' st2'.
Proof.
  induction imports as [|x rest IHi]; intros st1 st2 st1' Hsame Hrun.
  { cbn in Hrun |- *. injection Hrun as <-. eauto. }
  rewrite filter_cons. cbn in Hrun.
  destruct (decide (known index x)) as [[module Hx]|Hx].
  - rewrite Hx in Hrun. cbn. rewrite Hx.
    assert (x ∈ seen st1 <-> x ∈ seen st2) as Hseen.
    { destruct Hsame as (_ & _ & Hs). apply Hs. by eexists. }
    case_bool_decide as H1.
    + rewrite bool_decide_eq_true_2 by tauto. by apply (IHi st1).
    + rewrite bool_decide_eq_false_2 by tauto.
      destruct (collectFromImports depth index (ModImports module) (markSeen x st1))
        as [st1n|] eqn:Hnested; [|done].
      destruct (collectFromImports_sameKnown depth _ _ (markSeen x st2) _
                  (sameKnown_markSeen x _ _ Hsame) Hnested)
        as (st2n & -> & Hsame').
      apply (IHi (foldl addImported st1n (ModVars module))); [|done].
      by apply sameKnown_addImported.
  - apply eq_None_not_Some in Hx. rewrite Hx in Hrun.
    case_bool_decide; eapply IHi; try exact Hrun;
      auto using sameKnown_markSeen_l.
Qed.

End Unknown.

(** X20: import names that the index does not know are passed over: the
    variables collected for a command are those collected for the command
    without these imports. *)
Theorem unknown_imports_ignored (cheat : Cheat) (index : CheatIndex) :
  collectVariables (withImports cheat (filter (known index) (Imports cheat))) index
  = collectVariables cheat index.
Proof.
  destruct (collectVariables_chosen cheat index) as (st1 & Hst1 & _ & _).
  unfold collectVariables. rewrite Hst1.
  destruct (collectFromImports_known index (size (Modules index)) (Imports cheat)
              emptyState emptyState st1) as (st2 & Hst2 & Hd & _); [done|exact Hst1|].
  unfold importDepth. cbn [Imports withImports Command Vars]. by rewrite Hst2, Hd.
Qed.

(** ** Output of the final command *)

Lemma hooked_text sys command :
  (if bool_decide (GetPostHook sys ≠ "")
   then (if bool_decide (GetPreHook sys ≠ "") then GetPreHook sys +:+ command else command)
        +:+ GetPostHook sys
   else (if bool_decide (GetPreHook sys ≠ "") then GetPreHook sys +:+ command else command))
  = GetPreHook sys +:+ command +:+ GetPostHook sys.
Proof.
  destruct (decide (GetPreHook sys = "")) as [Hpre|Hpre];
    destruct (decide (GetPostHook sys = "")) as [Hpost|Hpost].
  - rewrite !bool_decide_eq_false_2 by tauto. by rewrite Hpre, Hpost, string_app_nil_r.
  - rewrite bool_decide_eq_true_2, bool_decide_eq_false_2 by tauto. by rewrite Hpre.
  - rewrite bool_decide_eq_false_2, bool_decide_eq_true_2 by tauto.
    by rewrite Hpost, string_app_nil_r.
  - rewrite !bool_decide_eq_true_2 by tauto. apply string_app_assoc.
Qed.



(** X22: the copy mode writes its notice exactly when it returns no error:
    after a clipboard program that ran without error, and also when no
    clipboard program was found and the text went to the standard output;
    an error is the error of the clipboard program that was run. *)
Theorem copy_notice_iff_no_error (sys : System) (command : string) :
  GetOutput sys = "copy" ->
  (Stderr copiedNotice ∈ fst (executeOutput sys command)
   <-> snd (executeOutput sys command) = None)
  /\ (forall err, snd (executeOutput sys command) = Some err ->
        exists name args, Ran name args (finalCommand sys command) ∈ fst (executeOutput sys command)
          /\ RunCommand sys name args (finalCommand sys command) = Some err)
  /\ ((forall program, program ∈ clipboardPrograms -> LookPath sys program.1 = false) ->
      executeOutput sys command = ([Stdout (finalCommand sys command); Stderr copiedNotice], None)).
Proof.
  intros Hmode. unfold executeOutput, finalCommand. cbv zeta. rewrite hooked_text.
  set (final := GetPreHook sys +:+ command +:+ GetPostHook sys).
  rewrite Hmode. rewrite bool_decide_eq_false_2 by done.
  rewrite bool_decide_eq_true_2 by done.
  unfold copyToClipboard, commandExists. cbv zeta. split_and!.
  - repeat (destruct (LookPath sys _)); try destruct (RunCommand sys _ _ _);
      simpl; split; try done; intros Hin;
      repeat (apply elem_of_cons in Hin as [Hin|Hin]; try done);
      try (by apply elem_of_nil in Hin); set_solver.
  - intros err.
    repeat (destruct (LookPath sys _)); try destruct (RunCommand sys _ _ _) eqn:Hrun;
      simpl; try done; intros [= <-]; eexists _, _; (split; [left|exact Hrun]).
  - intros Hnone.
    assert (LookPath sys "wl-copy" = false) as ->
      by (apply (Hnone ("wl-copy", [])); unfold clipboardPrograms; set_solver).
    assert (LookPath sys "xclip" = false) as ->
      by (apply (Hnone ("xclip", ["-selection"; "clipboard"]));
          unfold clipboardPrograms; set_solver).
    assert (LookPath sys "xsel" = false) as ->
      by (apply (Hnone ("xsel", ["--clipboard"; "--input"]));
          unfold clipboardPrograms; set_solver).
    assert (LookPath sys "pbcopy" = false) as ->
      by (apply (Hnone ("pbcopy", [])); unfold clipboardPrograms; set_solver).
    done.
Qed.


(** ** The progress header *)

Lemma replaceVarFrom_noByte c pat replacement s :
  noByte c replacement = true ->
  forall skip, noByte c s = true ->
  noByte c (replaceVarFrom pat replacement skip s) = true.
Proof.
  intros Hrep. induction s as [|x s IH]; intros skip Hs; [done|].
  cbn [noByte] in Hs. apply andb_true_iff in Hs as [Hx Hs].
  cbn [replaceVarFrom]. destruct skip as [|k]; [|by apply IH].
  destruct (_ && _)%bool.
  - rewrite noByte_app, Hrep. by apply IH.
  - cbn [noByte]. rewrite Hx. by apply IH.
Qed.

Lemma Forall_imap_pair {A} (P : A -> Prop) (l : list A) :
  Forall P l -> Forall (fun p : nat * A => P (snd p)) (imap pair l).
Proof.
  intros Hl. apply Forall_forall. intros [i x] Hin.
  apply elem_of_lookup_imap in Hin as (j & y & [= -> ->] & Hy).
  rewrite Forall_forall in Hl. apply Hl. by apply list_elem_of_lookup_2 in Hy.
Qed.

Section Header.
Context (env : Env).
Hypothesis header_keeps : keepsLine (styleHeader env).
Hypothesis cursor_keeps : keepsLine (styleCursor env).
Hypothesis command_keeps : keepsLine (styleCommand env).
Hypothesis dim_keeps : keepsLine (styleDim env).

Lemma progressCmd_noByte currentIdx (l : list (nat * varState)) :
  Forall (fun p => oneLine (snd p)) l ->
  forall cmd, noByte "010" cmd = true ->
  noByte "010"
    (foldl (fun progressCmd '(i, vs) =>
             if resolved vs then
               replaceVar progressCmd (Name (def vs)) (styleHeader env (value vs))
             else if bool_decide (Z.of_nat i = currentIdx) then
               replaceVar progressCmd (Name (def vs))
                 (styleCursor env ("$" +:+ Name (def vs)))
             else progressCmd) cmd l) = true.
Proof.
  induction 1 as [|[i vs] l [Hname Hvalue] _ IH]; intros cmd Hcmd; [done|].
  cbn [foldl]. apply IH. simpl in *. destruct (resolved vs).
  - apply replaceVarFrom_noByte; [by apply header_keeps|done].
  - case_bool_decide; [|done].
    apply replaceVarFrom_noByte; [|done]. apply cursor_keeps.
    by rewrite app_String.
Qed.

Lemma statusLines_length currentIdx (l : list (nat * varState)) :
  Forall (fun p => oneLine (snd p)) l ->
  forall sb,
  length (GoStrings.SplitLines
    (foldl (fun sb '(i, vs) =>
           let sb := sb +:+ String "010" "" in
           if resolved vs then
             sb +:+ styleCommand env "✓" +:+ " "
                +:+ styleDim env ("$" +:+ Name (def vs)) +:+ " = "
                +:+ styleHeader env (value vs)
           else if bool_decide (Z.of_nat i = currentIdx) then
             sb +:+ styleCursor env ("▶ $" +:+ Name (def vs))
           else sb +:+ styleDim env ("○ $" +:+ Name (def vs))) sb l))
  = length (GoStrings.SplitLines sb) + length l.
Proof.
  induction 1 as [|[i vs] l [Hname Hvalue] _ IH]; intros sb; [simpl; lia|].
  cbn [foldl]. rewrite IH. cbn [length]. simpl in Hname, Hvalue.
  assert (forall line, noByte "010" line = true ->
            length (GoStrings.SplitLines ((sb +:+ String "010" "") +:+ line))
            = S (length (GoStrings.SplitLines sb))) as Hline.
  { intros line Hline. rewrite string_app_assoc, app_String.
    change ("" +:+ line) with line.
    rewrite SplitLines_app, (SplitLines_single line Hline), length_app. simpl. lia. }
  cbv zeta. destruct (resolved vs); [|case_bool_decide].
  - rewrite Hline; [lia|]. rewrite !noByte_app.
    rewrite command_keeps, dim_keeps, header_keeps; done.
  - rewrite Hline; [lia|]. apply cursor_keeps.
    rewrite noByte_app. by rewrite Hname.
  - rewrite Hline; [lia|]. apply dim_keeps.
    rewrite noByte_app. by rewrite Hname.
Qed.

End Header.

(** X25: the progress header has one line for the command and one line
    for every variable: when the command, the names and the values have no
    line feed and the styles add none, splitting the header at the line
    feeds gives one more line than there are variables, wherever the cursor
    is and whichever variables are resolved. *)
Theorem buildProgressHeader_lines (env : Env) (cmd : string) (vars : list varState)
    (currentIdx : Z) :
  keepsLine (styleHeader env) -> keepsLine (styleCursor env) ->
  keepsLine (styleCommand env) -> keepsLine (styleDim env) ->
  noByte "010" cmd = true ->
  Forall oneLine vars ->
  length (GoStrings.SplitLines (buildProgressHeader env cmd vars currentIdx))
  = S (length vars).
Proof.
  intros Hh Hc Hm Hd Hcmd Hvars. unfold buildProgressHeader. cbv zeta.
  rewrite (statusLines_length env Hh Hc Hm Hd currentIdx);
    [|by apply Forall_imap_pair].
  rewrite length_imap, SplitLines_single; [done|].
  apply progressCmd_noByte; [done|done| |done]. by apply Forall_imap_pair.
Qed.

(** ** The further properties at concrete inputs *)

Lemma findCommandVars_names_witness :
  acceptedName "region" /\ substringOf ("$" +:+ "region") (Command deployCheat).
Proof.
  apply (findCommandVars_names (Command deployCheat) None "region").
  vm_compute. right. left.
Defined.



Lemma parseShellArgs_app_witness :
  parseShellArgs ("--header 'Pick one'" +:+ " " +:+ "--multi")
  = parseShellArgs "--header 'Pick one'" ++ parseShellArgs "--multi".
Proof.
  apply (parseShellArgs_app "--header 'Pick one'" "--multi").
  vm_compute. reflexivity.
Defined.

Lemma extractCustomHeader_quoted_witness :
  extractCustomHeader ("--header " +:+ String "039" ("Pick one" +:+ String "039" ""))
  = "Pick one".
Proof.
  apply (extractCustomHeader_quoted "039" "Pick one").
  - left. reflexivity.
  - vm_compute. reflexivity.
Defined.

Lemma replaceVar_absent_witness :
  replaceVar "echo hi" "env" "prod" = "echo hi".
Proof.
  apply (replaceVar_absent "echo hi" "env" "prod").
  apply noByte_not_substring. vm_compute. reflexivity.
Defined.

Lemma replaceVar_longer_name_witness :
  replaceVar ("$" +:+ "env" +:+ "ironment") "env" "prod" = "$" +:+ "env" +:+ "ironment"
  /\ substituteScope [("env", "prod")] ("$" +:+ "env" +:+ "ironment")
     = "prod" +:+ "ironment".
Proof.
  apply (replaceVar_longer_name "env" "ironment" "prod" "v" "i" "ronment").
  - reflexivity.
  - reflexivity.
  - reflexivity.
  - reflexivity.
  - vm_compute. reflexivity.
Defined.

Lemma substituteScope_no_dollar_witness :
  substituteScope [("env", "prod"); ("region", "eu")] "list-envs" = "list-envs".
Proof.
  apply (substituteScope_no_dollar [("env", "prod"); ("region", "eu")] "list-envs").
  vm_compute. reflexivity.
Defined.

Lemma buildScope_lookup_witness :
  buildScope deployVars !! "env" = Some "b" <-> resolvedAs deployVars "env" "b".
Proof.
  apply (buildScope_lookup deployVars "env" "b").
  cbn. repeat constructor; set_solver.
Defined.

Lemma resolveVar_outcome_witness :
  exists consumed,
    consumed ≠ [] /\ [press "h"; press "enter"; press "x"] = consumed ++ [press "x"].
Proof.
  refine (proj2 (proj2 (resolveVar_outcome sampleEnv msgDef ∅ "" ""
                          [press "h"; press "enter"; press "x"] [press "x"]
                          "h" false None _))).
  vm_compute. reflexivity.
Defined.

Lemma interrupt_ends_process_witness :
  resolveLoop sampleEnv 1 deployCheat deployVars 1
    ((Deliver <$> [KeyMsg "e"]) ++ Deliver (KeyMsg "ctrl+c") :: [press "enter"])
  = Some Exited.
Proof.
  apply (interrupt_ends_process sampleEnv deployCheat deployVars 1
           (mkVarState regionDef "" false "") [KeyMsg "e"] [press "enter"] 0).
  - lia.
  - reflexivity.
  - reflexivity.
  - repeat constructor; intros [Hq|[Hq|Hq]]; discriminate Hq.
Defined.

Lemma program_failure_returned_witness :
  resolveLoop sampleEnv 1 deployCheat deployVars 1
    ((Deliver <$> [KeyMsg "e"]) ++ RunFails "no tty" :: [press "enter"])
  = Some (Returned false (Some "no tty") deployCheat).
Proof.
  apply (program_failure_returned sampleEnv deployCheat deployVars 1
           (mkVarState regionDef "" false "") [KeyMsg "e"] "no tty" [press "enter"] 0).
  - lia.
  - reflexivity.
  - reflexivity.
  - repeat constructor; intros [Hq|[Hq|Hq]]; discriminate Hq.
Defined.

Lemma escape_at_first_variable_witness :
  resolveAllVariables sampleEnv deployCheat emptyIndex
    ((Deliver <$> [KeyMsg "down"]) ++ Deliver (KeyMsg "esc") :: [])
  = Some (Returned true None deployCheat).
Proof.
  apply (escape_at_first_variable sampleEnv deployCheat emptyIndex [KeyMsg "down"] []).
  - vm_compute. discriminate.
  - repeat constructor; intros [Hq|[Hq|Hq]]; discriminate Hq.
Defined.

Lemma success_binds_every_variable_witness :
  exists cheat',
    resolveAllVariables sampleEnv deployCheat emptyIndex
      [press "down"; press "enter"; press "e"; press "u"; press "enter"]
    = Some (Returned false None cheat')
    /\ is_Some (Scope cheat' !! "env")
    /\ is_Some (Scope cheat' !! "region")
    /\ Scope cheat' !! "other" = Scope deployCheat !! "other".
Proof.
  destruct (resolveAllVariables sampleEnv deployCheat emptyIndex
              [press "down"; press "enter"; press "e"; press "u"; press "enter"])
    as [[goBack err cheat'| | |]|] eqn:Hrun; try (vm_compute in Hrun; discriminate Hrun).
  destruct goBack; [vm_compute in Hrun; discriminate Hrun|].
  destruct err; [vm_compute in Hrun; discriminate Hrun|].
  exists cheat'. split; [reflexivity|].
  destruct (success_binds_every_variable sampleEnv deployCheat cheat' emptyIndex _ Hrun)
    as [Hin Hout].
  split_and!.
  - apply Hin. vm_compute. left.
  - apply Hin. vm_compute. right. left.
  - apply Hout. vm_compute. intros Hin'.
    repeat (apply elem_of_cons in Hin' as [Hin'|Hin']; [discriminate Hin'|]).
    by apply elem_of_nil in Hin'.
Defined.

Lemma no_partial_scope_witness :
  resolveAllVariables sampleEnv deployCheat emptyIndex
    [press "down"; press "enter"; press "esc"; press "esc"]
  = Some (Returned true None deployCheat).
Proof.
  destruct (resolveAllVariables sampleEnv deployCheat emptyIndex
              [press "down"; press "enter"; press "esc"; press "esc"])
    as [[goBack err cheat'| | |]|] eqn:Hrun; try (vm_compute in Hrun; discriminate Hrun).
  destruct goBack; [|vm_compute in Hrun; discriminate Hrun].
  destruct err; [vm_compute in Hrun; discriminate Hrun|].
  rewrite (no_partial_scope sampleEnv deployCheat cheat' emptyIndex _ true None Hrun);
    [reflexivity|]. left. reflexivity.
Defined.

Lemma copy_notice_iff_no_error_witness :
  (Stderr copiedNotice ∈ fst (executeOutput copySystem "reboot")
   <-> snd (executeOutput copySystem "reboot") = None)
  /\ Ran "xsel" ["--clipboard"; "--input"] "sudo reboot"
       ∈ fst (executeOutput copySystem "reboot").
Proof.
  destruct (copy_notice_iff_no_error copySystem "reboot") as (Hiff & _ & _).
  - reflexivity.
  - split; [exact Hiff|]. vm_compute. left.
Defined.


Lemma buildProgressHeader_lines_witness :
  length (GoStrings.SplitLines (buildProgressHeader sampleEnv (Command deployCheat)
                                  deployVars 1))
  = S (length deployVars).
Proof.
  apply (buildProgressHeader_lines sampleEnv (Command deployCheat) deployVars 1).
  - intros s Hs. exact Hs.
  - intros s Hs. exact Hs.
  - intros s Hs. exact Hs.
  - intros s Hs. exact Hs.
  - vm_compute. reflexivity.
  - repeat constructor.
Defined.
